(** * Minesweeper: the knowledge base of [MinesweeperAI] (src/minesweeper.py)

    A shallow embedding of the classes [Minesweeper], [Sentence] and
    [MinesweeperAI].  Python sets of cells are [gset]s, integers are [Z],
    the knowledge list is a [list] read by index, because the source
    iterates over it while appending to it.

    A method that returns a value is a function from the state of its
    object to the value paired with the state after the call; a method that
    returns nothing is a function from state to state. *)

From stdpp Require Import gmap list.
From Stdlib Require Import ZArith Lia.

Local Open Scope Z_scope.
Set Warnings "-clear-no-such-hyp".

(** ** Cells and Python helpers *)

Abbreviation cell := (Z * Z)%type.

(** [range(lo, hi)]: empty when [hi <= lo]. *)
Definition py_range (lo hi : Z) : list Z :=
  (λ k : nat, lo + Z.of_nat k) <$> seq 0 (Z.to_nat (hi - lo)).

(** [l[z]] on a Python list: a negative index counts from the end, an index
    out of range raises [IndexError] ([None]). *)
Definition py_index {A} (l : list A) (z : Z) : option A :=
  if decide (0 ≤ z) then l !! Z.to_nat z
  else if decide (- Z.of_nat (length l) ≤ z) then l !! Z.to_nat (Z.of_nat (length l) + z)
  else None.

(** The pairs [(i, j)] visited by
    [for i in range(c[0]-1, c[0]+2): for j in range(c[1]-1, c[1]+2)]. *)
Definition around (c : cell) : list cell :=
  i ← py_range (c.1 - 1) (c.1 + 2);
  j ← py_range (c.2 - 1) (c.2 + 2);
  [(i, j)].

(** The pairs visited by [for i in range(h): for j in range(w)]. *)
Definition grid (h w : Z) : list cell :=
  i ← py_range 0 h; j ← py_range 0 w; [(i, j)].

Definition in_bounds (h w : Z) (c : cell) : Prop :=
  (0 ≤ c.1 ∧ c.1 < h) ∧ (0 ≤ c.2 ∧ c.2 < w).

Global Instance in_bounds_dec h w c : Decision (in_bounds h w c).
Proof. unfold in_bounds. apply _. Defined.

(** ** class Minesweeper *)

Module Minesweeper.

Record t := Build
  { height : Z;
    width : Z;
    board : list (list bool) }.

(** [is_mine]: [self.board[i][j]]. *)
Definition is_mine (g : t) (c : cell) : option bool :=
  row ← py_index (board g) c.1; py_index row c.2.

(** One iteration of the body of the double loop of [nearby_mines]. *)
Definition nearby_step (g : t) (c : cell) (acc : option Z) (ij : cell) : option Z :=
  count ← acc;
  if decide (ij = c) then Some count
  else if decide (in_bounds (height g) (width g) ij) then
    b ← is_mine g ij;
    Some (if b : bool then count + 1 else count)
  else Some count.

Definition nearby_mines (g : t) (c : cell) : option Z :=
  foldl (nearby_step g c) (Some 0) (around c).

End Minesweeper.

(** ** class Sentence *)

Module Sentence.

Record t := Build
  { cells : gset cell;
    count : Z }.

Global Instance eq_dec : EqDecision t.
Proof. solve_decision. Defined.

Definition len (s : t) : Z := Z.of_nat (size (cells s)).

(** The two queries return a set and assign nothing; the second component
    is the sentence after the call. *)
Definition known_mines (s : t) : gset cell * t :=
  if decide (len s = count s ∧ count s ≠ 0) then (cells s, s) else (∅, s).

Definition known_safes (s : t) : gset cell * t :=
  if decide (count s = 0) then (cells s, s) else (∅, s).

Definition mark_mine (c : cell) (s : t) : t :=
  if decide (c ∈ cells s)
  then {| cells := cells s ∖ {[c]}; count := count s - 1 |}
  else s.

Definition mark_safe (c : cell) (s : t) : t :=
  if decide (c ∈ cells s)
  then {| cells := cells s ∖ {[c]}; count := count s |}
  else s.

End Sentence.

(** ** class MinesweeperAI *)

Module AI.

Record t := Build
  { height : Z;
    width : Z;
    moves_made : gset cell;
    mines : gset cell;
    safes : gset cell;
    knowledge : list Sentence.t }.

(** [__init__] *)
Definition init (h w : Z) : t :=
  {| height := h; width := w;
     moves_made := ∅; mines := ∅; safes := ∅; knowledge := [] |}.

Definition mark_mine (c : cell) (a : t) : t :=
  {| height := height a; width := width a;
     moves_made := moves_made a;
     mines := {[c]} ∪ mines a;
     safes := safes a;
     knowledge := Sentence.mark_mine c <$> knowledge a |}.

Definition mark_safe (c : cell) (a : t) : t :=
  {| height := height a; width := width a;
     moves_made := moves_made a;
     mines := mines a;
     safes := {[c]} ∪ safes a;
     knowledge := Sentence.mark_safe c <$> knowledge a |}.

(** *** add_knowledge, steps 1 to 3 *)

(** The body of the double loop that builds the new sentence; the state of
    the loop is the pair of the locals [cells] and [count]. *)
Definition neighbour_step (a : t) (c : cell)
    (acc : gset cell * Z) (ij : cell) : gset cell * Z :=
  if decide (ij = c) then acc
  else
    let count := if decide (ij ∈ mines a) then acc.2 - 1 else acc.2 in
    let cells :=
      if decide (in_bounds (height a) (width a) ij) then
        if decide ((ij ∉ mines a) ∧ (ij ∉ safes a)) then {[ij]} ∪ acc.1 else acc.1
      else acc.1 in
    (cells, count).

Definition new_sentence (a : t) (c : cell) (count : Z) : Sentence.t :=
  let r := foldl (neighbour_step a c) (∅, count) (around c) in
  {| Sentence.cells := r.1; Sentence.count := r.2 |}.

Definition append (s : Sentence.t) (a : t) : t :=
  {| height := height a; width := width a;
     moves_made := moves_made a; mines := mines a; safes := safes a;
     knowledge := knowledge a ++ [s] |}.

(** Steps 1, 2 and 3: record the move, mark the cell safe, append the
    sentence about its neighbours. *)
Definition record_move (c : cell) (count : Z) (a : t) : t :=
  let a1 :=
    {| height := height a; width := width a;
       moves_made := {[c]} ∪ moves_made a;
       mines := mines a; safes := safes a; knowledge := knowledge a |} in
  let a2 := mark_safe c a1 in
  append (new_sentence a2 c count) a2.

(** *** add_knowledge, step 4 *)

(** [for cells in mine.copy(): self.mark_mine(cells)], in the order of
    [elements]; any other order gives the same state
    ([mark_mines_any_order] below). *)
Definition mark_mines (X : gset cell) (a : t) : t :=
  foldl (λ a c, mark_mine c a) a (elements X).

Definition mark_safes (X : gset cell) (a : t) : t :=
  foldl (λ a c, mark_safe c a) a (elements X).

(** The body of [for sentence in self.knowledge] at list index [k].
    [known_mines] and [known_safes] return the set object of the sentence
    itself, not a copy.  [mine.copy()] is taken before anything is marked.
    [safe] is that live object only when the count is zero, and then
    [mine] is empty and nothing is marked before [if safe:] reads it
    ([resolve_step_safe_alias] below): both are used as values. *)
Definition resolve_step (a : t) (k : nat) : t :=
  match knowledge a !! k with
  | None => a
  | Some sentence =>
    let mine := (Sentence.known_mines sentence).1 in
    let safe := (Sentence.known_safes sentence).1 in
    let a1 := if decide (mine ≠ ∅) then mark_mines mine a else a in
    if decide (safe ≠ ∅) then mark_safes safe a1 else a1
  end.

(** The list keeps its length during the pass, so the iterator visits the
    indices [0 .. len - 1]. *)
Definition resolve_pass (a : t) : t :=
  foldl resolve_step a (seq 0 (length (knowledge a))).

(** *** add_knowledge, step 5 *)

(** Outcome of one step of the two nested [for] loops. *)
Inductive outcome :=
  | Continue
  | Append (s : Sentence.t)
  | Return.

Definition subset_body (set1 set2 : Sentence.t) : outcome :=
  if decide (Sentence.count set1 = 0 ∨ Sentence.count set2 = 0) then Continue
  else if decide (Sentence.cells set1 = Sentence.cells set2) then Continue
  else if decide (Sentence.len set1 = 0 ∨ Sentence.len set2 = 0) then Continue
  else if decide (Sentence.cells set1 ⊆ Sentence.cells set2) then
    Append {| Sentence.cells := Sentence.cells set2 ∖ Sentence.cells set1;
              Sentence.count := Sentence.count set2 - Sentence.count set1 |}
  else Return.

(** Both loops iterate over [self.knowledge] while the body appends to it:
    a Python list iterator is an index into the live list, so appended
    sentences are visited too.  [i] is the index of [set1], [j] the index
    the inner iterator reads next.  [None] is running out of fuel. *)
Fixpoint subset_loop (fuel : nat) (i j : nat) (kb : list Sentence.t)
    : option (list Sentence.t) :=
  match fuel with
  | O => None
  | S fuel =>
    match kb !! i with
    | None => Some kb
    | Some set1 =>
      match kb !! j with
      | None => subset_loop fuel (S i) 0 kb
      | Some set2 =>
        match subset_body set1 set2 with
        | Continue => subset_loop fuel i (S j) kb
        | Append s => subset_loop fuel i (S j) (kb ++ [s])
        | Return => Some kb
        end
      end
    end
  end.

Definition subset_pass (fuel : nat) (a : t) : option t :=
  kb ← subset_loop fuel 0 0 (knowledge a);
  Some {| height := height a; width := width a;
          moves_made := moves_made a; mines := mines a; safes := safes a;
          knowledge := kb |}.

(** Steps 4 and 5. *)
Definition propagate (fuel : nat) (a : t) : option t :=
  subset_pass fuel (resolve_pass a).

Definition add_knowledge (fuel : nat) (c : cell) (count : Z) (a : t) : option t :=
  propagate fuel (record_move c count a).

(** *** Move selection *)

Definition possibles_moves (a : t) : list cell :=
  filter (λ ij, (ij ∉ moves_made a) ∧ (ij ∉ mines a)) (grid (height a) (width a)).

(** [random.choice(seq)] returns [seq[k]] for an index [k] below
    [len(seq)] drawn from the generator; [rnd] is the number drawn. *)
Definition random_choice {A} (rnd : nat) (l : list A) : option A :=
  l !! (rnd `mod` length l)%nat.

(** The body builds the local list and reads [self]; it assigns no
    attribute.  The second component is the engine after the call. *)
Definition make_random_move (rnd : nat) (a : t) : option cell * t :=
  let moves := possibles_moves a in
  if decide (length moves ≠ 0%nat) then (random_choice rnd moves, a)
  else (None, a).

(** [for cell in self.safes: if cell not in self.moves_made: return cell]
    with the cells of the set visited in the order [l]. *)
Fixpoint safe_move_loop (a : t) (l : list cell) : option cell :=
  match l with
  | [] => None
  | c :: l => if decide (c ∉ moves_made a) then Some c else safe_move_loop a l
  end.

(** [order] is the order in which the iterator of the set [self.safes]
    yields its cells: it depends on the hash table, not on the cells alone,
    so it is given to the call.  The body reads [self] and assigns no
    attribute; the second component is the engine after the call. *)
Definition make_safe_move (order : list cell) (a : t) : option cell * t :=
  (safe_move_loop a order, a).

End AI.

(** ** class Minesweeper: construction and the win test *)

Module Game.

(** What a call comes to: a result, an exception, or a loop still running
    when the numbers drawn are used up. *)
Inductive run (A : Type) :=
  | Returned (x : A)
  | Raised
  | Starved.
Global Arguments Returned {A} x.
Global Arguments Raised {A}.
Global Arguments Starved {A}.

(** The attributes [height], [width] and [board], with [mines] and
    [mines_found]. *)
Record t := Build
  { field : Minesweeper.t;
    mines : gset cell;
    mines_found : gset cell }.

(** [random.randrange(n)]: a number below [n] from the generator, and
    [ValueError] when [n] is not positive; [rnd] is the number drawn. *)
Definition randrange (rnd : nat) (n : Z) : option Z :=
  if decide (0 < n) then Some (Z.of_nat (rnd `mod` Z.to_nat n)) else None.

(** The board of [False] built by the two [for] loops of [__init__]. *)
Definition empty_board (h w : Z) : list (list bool) :=
  (λ _ : Z, (λ _ : Z, false) <$> py_range 0 w) <$> py_range 0 h.

(** [self.board[i][j] = True] for indices that [randrange] returned. *)
Definition set_true (board : list (list bool)) (i j : Z) : list (list bool) :=
  alter (λ row, <[Z.to_nat j := true]> row) (Z.to_nat i) board.

(** [while len(self.mines) != mines], one pair of draws per iteration. *)
Fixpoint place (h w target : Z) (draws : list (nat * nat))
    (board : list (list bool)) (placed : gset cell)
    : run (list (list bool) * gset cell) :=
  match draws with
  | [] =>
    if decide (Z.of_nat (size placed) ≠ target) then Starved
    else Returned (board, placed)
  | (r1, r2) :: draws =>
    if decide (Z.of_nat (size placed) ≠ target) then
      match randrange r1 h with
      | None => Raised
      | Some i =>
        match randrange r2 w with
        | None => Raised
        | Some j =>
          match row ← py_index board i; py_index row j with
          | None => Raised
          | Some true => place h w target draws board placed
          | Some false =>
            place h w target draws (set_true board i j) ({[(i, j)]} ∪ placed)
          end
        end
      end
    else Returned (board, placed)
  end.

(** [__init__(height, width, mines)] *)
Definition init (h w target : Z) (draws : list (nat * nat)) : run t :=
  match place h w target draws (empty_board h w) ∅ with
  | Returned (board, placed) =>
    Returned {| field := Minesweeper.Build h w board;
                mines := placed; mines_found := ∅ |}
  | Raised => Raised
  | Starved => Starved
  end.

(** [won]: [self.mines_found == self.mines]. *)
Definition won (g : t) : bool := bool_decide (mines_found g = mines g).

End Game.

(** * Vocabulary of the properties *)

(** ** Invariants *)

(** No resolved cell is left in a sentence. *)
Definition clean (a : AI.t) : Prop :=
  Forall (λ s, Sentence.cells s ## AI.mines a ∪ AI.safes a) (AI.knowledge a).

Section board_vocabulary.
Variable g : Minesweeper.t.

(** The cells of the grid that hold a mine. *)
Definition true_mine (c : cell) : Prop :=
  in_bounds (Minesweeper.height g) (Minesweeper.width g) c ∧
  Minesweeper.is_mine g c = Some true.

Global Instance true_mine_dec c : Decision (true_mine c).
Proof. unfold true_mine. apply _. Defined.

Definition mines_among (X : gset cell) : nat := size (filter true_mine X).

Definition sentence_sound (s : Sentence.t) : Prop :=
  Sentence.count s = Z.of_nat (mines_among (Sentence.cells s)).

Record sound (a : AI.t) : Prop := Sound
  { sound_height : AI.height a = Minesweeper.height g;
    sound_width : AI.width a = Minesweeper.width g;
    sound_mines : ∀ c, c ∈ AI.mines a → true_mine c;
    sound_safes : ∀ c, c ∈ AI.safes a → ¬ true_mine c;
    sound_knowledge : Forall sentence_sound (AI.knowledge a) }.

(** An observation as the driver makes it: a cell of the grid that holds
    no mine, with the number of mines around it. *)
Definition truthful (c : cell) (n : Z) : Prop :=
  in_bounds (Minesweeper.height g) (Minesweeper.width g) c ∧
  Minesweeper.is_mine g c = Some false ∧
  Minesweeper.nearby_mines g c = Some n.

(** The states of an engine created for the board and fed truthful
    observations, one call of [add_knowledge] after the other. *)
Inductive reachable : AI.t → Prop :=
  | reachable_init :
      reachable (AI.init (Minesweeper.height g) (Minesweeper.width g))
  | reachable_observe a fuel c n a' :
      reachable a → truthful c n →
      AI.add_knowledge fuel c n a = Some a' → reachable a'.
End board_vocabulary.

(** A state is a fixed point when one more direct pass followed by one more
    subset pass marks no cell and leaves no sentence that was not there. *)
Definition fixed_point (a : AI.t) : Prop :=
  ∃ fuel a', AI.propagate fuel a = Some a' ∧
    AI.mines a' = AI.mines a ∧ AI.safes a' = AI.safes a ∧
    ∀ s, s ∈ AI.knowledge a' → s ∈ AI.knowledge a.

(** ** Termination of the subset loop *)

(** A sentence the loop body can use: nonzero count, nonempty cells. *)
Definition active (s : Sentence.t) : Prop :=
  Sentence.count s ≠ 0 ∧ Sentence.cells s ≠ ∅.

Global Instance active_dec s : Decision (active s).
Proof. unfold active. apply _. Defined.

Definition nact (l : list Sentence.t) : nat := length (filter active l).

Section loop_vocabulary.
(** [a] bounds the number of active sentences, [N] the length the list
    can reach.  During the inner loop for the outer index [i] the list is
    [pre ++ ext], where [ext] holds the sentences appended since that
    inner loop started. *)
Variables a N : nat.

Record loop_inv (i j : nat) (kb pre ext : list Sentence.t) : Prop := LoopInv
  { li_split : kb = pre ++ ext;
    li_outer : (i ≤ length pre)%nat;
    li_inner : (j ≤ length kb)%nat;
    li_active : (nact pre ≤ a)%nat;
    li_budget : (length pre + a * nact (drop i pre) ≤ N)%nat;
    li_blocked :
      Forall (λ z, Sentence.cells z ≠ ∅ ∧
                   ∃ x, pre !! i = Some x ∧ active x ∧
                        Sentence.cells z ## Sentence.cells x) ext;
    li_scanned : Forall (λ z, ¬ active z) (take (j - length pre) ext);
    li_count : (length ext ≤ nact (take j pre))%nat }.
End loop_vocabulary.

(** Fuel that always suffices for a knowledge list. *)
Definition subset_fuel (kb : list Sentence.t) : nat :=
  let N := (length kb + nact kb * nact kb)%nat in
  S ((N + 1) * (N + 2) + (N + 1)).

(** ** Boards and states of the scenarios *)

(** One row of four cells with a mine at [(0, 2)]; the player reveals
    [(0, 1)] and then [(0, 3)]. *)
Definition line_board : Minesweeper.t :=
  Minesweeper.Build 1 4 [[false; false; true; false]].

Definition line_state1 : AI.t :=
  AI.Build 1 4 {[(0, 1)]} ∅ {[(0, 1)]} [Sentence.Build {[(0, 0); (0, 2)]} 1].

Definition line_state2 : AI.t :=
  AI.Build 1 4 {[(0, 1); (0, 3)]} {[(0, 2)]} {[(0, 1); (0, 3)]}
    [Sentence.Build {[(0, 0)]} 0; Sentence.Build ∅ 0].

(** Two rows of three cells with a mine at [(1, 0)]; the player reveals
    [(0, 1)] and then [(0, 0)]. *)
Definition corner_board : Minesweeper.t :=
  Minesweeper.Build 2 3 [[false; false; false]; [true; false; false]].

Definition corner_state1 : AI.t :=
  AI.Build 2 3 {[(0, 1)]} ∅ {[(0, 1)]}
    [Sentence.Build {[(0, 0); (0, 2); (1, 0); (1, 1); (1, 2)]} 1].

Definition corner_wide : Sentence.t :=
  Sentence.Build {[(0, 2); (1, 0); (1, 1); (1, 2)]} 1.

Definition corner_narrow : Sentence.t :=
  Sentence.Build {[(1, 0); (1, 1)]} 1.

Definition corner_state2 : AI.t :=
  AI.Build 2 3 {[(0, 0); (0, 1)]} ∅ {[(0, 0); (0, 1)]}
    [corner_wide; corner_narrow].

(** Two rows of three cells without a mine; the player reveals [(1, 1)]. *)
Definition clear_board : Minesweeper.t :=
  Minesweeper.Build 2 3 [[false; false; false]; [false; false; false]].

Definition clear_state : AI.t :=
  AI.Build 2 3 {[(1, 1)]} ∅
    {[(0, 0); (0, 1); (0, 2); (1, 0); (1, 1); (1, 2)]} [Sentence.Build ∅ 0].

(** Two orders in which the safe cells of [clear_state] and of
    [line_state2] can be visited. *)
Definition clear_order : list cell :=
  [(0, 1); (1, 1); (0, 0); (1, 2); (0, 2); (1, 0)].

Definition line_order : list cell := [(0, 3); (0, 1)].

(** The two sentences of the third scenario. *)
Definition scenario3_pair : Sentence.t := Sentence.Build {[(0, 0); (0, 1)]} 1.

Definition scenario3_single : Sentence.t := Sentence.Build {[(0, 0)]} 1.

(** An engine for an 8 by 8 grid that knows nothing but the sentences [kb]. *)
Definition scenario3_state (kb : list Sentence.t) : AI.t :=
  AI.Build 8 8 ∅ ∅ ∅ kb.

(** ** Further vocabulary *)

(** A board as [__init__] builds it: [height] rows of [width] cells. *)
Definition board_wf (g : Minesweeper.t) : Prop :=
  length (Minesweeper.board g) = Z.to_nat (Minesweeper.height g) ∧
  Forall (λ row, length row = Z.to_nat (Minesweeper.width g)) (Minesweeper.board g).

(** The neighbours of a cell that satisfy [P], counted as the loops of
    [nearby_mines] and [add_knowledge] visit them. *)
Definition count_around (P : cell → Prop) `{!∀ ij, Decision (P ij)} (c : cell) : Z :=
  Z.of_nat (length (filter (λ ij, ij ≠ c ∧ P ij) (around c))).

(** Every cell the engine has recorded is a cell of its grid. *)
Definition on_grid (a : AI.t) : Prop :=
  (∀ c, c ∈ AI.moves_made a ∪ AI.mines a ∪ AI.safes a →
        in_bounds (AI.height a) (AI.width a) c) ∧
  Forall (λ s, ∀ c, c ∈ Sentence.cells s → in_bounds (AI.height a) (AI.width a) c)
    (AI.knowledge a).

(** A sentence after the cells [X] were all marked as mines, or as safe. *)
Definition strike_mines (X : gset cell) (s : Sentence.t) : Sentence.t :=
  {| Sentence.cells := Sentence.cells s ∖ X;
     Sentence.count := Sentence.count s - Z.of_nat (size (Sentence.cells s ∩ X)) |}.

Definition strike_safes (X : gset cell) (s : Sentence.t) : Sentence.t :=
  {| Sentence.cells := Sentence.cells s ∖ X; Sentence.count := Sentence.count s |}.

(** * Properties *)

(** ** Ranges and the two double loops *)

Lemma elem_of_py_range lo hi z : z ∈ py_range lo hi ↔ lo ≤ z ∧ z < hi.
Proof.
  unfold py_range. rewrite list_elem_of_fmap. split.
  - intros (k & -> & Hk). apply elem_of_seq in Hk. lia.
  - intros [H1 H2]. exists (Z.to_nat (z - lo)). split; [lia|].
    apply elem_of_seq. lia.
Qed.

Lemma NoDup_py_range lo hi : NoDup (py_range lo hi).
Proof.
  unfold py_range. apply NoDup_fmap_2; [|apply NoDup_seq].
  intros x y. lia.
Qed.

Lemma elem_of_pairs (l1 l2 : list Z) (c : cell) :
  c ∈ (i ← l1; j ← l2; [(i, j)]) ↔ c.1 ∈ l1 ∧ c.2 ∈ l2.
Proof.
  destruct c as [x y]. simpl. rewrite list_elem_of_bind. split.
  - intros (i & Hc & Hi). apply list_elem_of_bind in Hc as (j & Hc & Hj).
    apply list_elem_of_singleton in Hc. by simplify_eq.
  - intros [Hx Hy]. exists x. split; [|done].
    apply list_elem_of_bind. exists y. split; [|done]. by apply list_elem_of_singleton.
Qed.

Lemma NoDup_pairs (l1 l2 : list Z) :
  NoDup l1 → NoDup l2 → NoDup (i ← l1; j ← l2; [(i, j) : cell]).
Proof.
  intros H1 H2. induction H1 as [|i l1 Hi _ IH]; simpl; [constructor|].
  apply NoDup_app. split_and!; [ | | done].
  - clear -H2. induction H2 as [|j l2 Hj _ IH]; simpl; [constructor|].
    constructor; [|done].
    intros Hin. apply list_elem_of_bind in Hin as (j' & Hin & Hj').
    apply list_elem_of_singleton in Hin. by simplify_eq.
  - intros c Hc Hc'. apply list_elem_of_bind in Hc as (j & Hc & _).
    apply list_elem_of_singleton in Hc. subst c.
    apply (elem_of_pairs l1 l2 (i, j)) in Hc' as [? _]. done.
Qed.

Lemma elem_of_around (c ij : cell) :
  ij ∈ around c ↔ (c.1 - 1 ≤ ij.1 ≤ c.1 + 1) ∧ (c.2 - 1 ≤ ij.2 ≤ c.2 + 1).
Proof.
  unfold around. rewrite elem_of_pairs, !elem_of_py_range. lia.
Qed.

Lemma NoDup_around c : NoDup (around c).
Proof. apply NoDup_pairs; apply NoDup_py_range. Qed.

Lemma elem_of_grid h w (c : cell) : c ∈ grid h w ↔ in_bounds h w c.
Proof.
  unfold grid, in_bounds. rewrite elem_of_pairs, !elem_of_py_range. lia.
Qed.

(** ** Sentences *)

Lemma Sentence_cells_mark_mine c s :
  Sentence.cells (Sentence.mark_mine c s) = Sentence.cells s ∖ {[c]}.
Proof. unfold Sentence.mark_mine. destruct (decide _); simpl; set_solver. Qed.

Lemma Sentence_cells_mark_safe c s :
  Sentence.cells (Sentence.mark_safe c s) = Sentence.cells s ∖ {[c]}.
Proof. unfold Sentence.mark_safe. destruct (decide _); simpl; set_solver. Qed.

Lemma Sentence_known_safes_elem c s :
  c ∈ (Sentence.known_safes s).1 ↔ Sentence.count s = 0 ∧ c ∈ Sentence.cells s.
Proof. unfold Sentence.known_safes. destruct (decide _); simpl; set_solver. Qed.

Lemma Sentence_known_mines_elem c s :
  c ∈ (Sentence.known_mines s).1 ↔
  (Sentence.len s = Sentence.count s ∧ Sentence.count s ≠ 0) ∧ c ∈ Sentence.cells s.
Proof. unfold Sentence.known_mines. destruct (decide _); simpl; set_solver. Qed.

(** ** Loops that preserve an invariant *)

Lemma foldl_preserves {A B} (P : A → Prop) (Q : B → Prop) (f : A → B → A) l a :
  (∀ a b, P a → Q b → P (f a b)) → Forall Q l → P a → P (foldl f a l).
Proof.
  intros Hf Hl. revert a. induction Hl as [|b l Hb _ IH]; simpl; [done|].
  intros a Ha. apply IH. by apply Hf.
Qed.

Section resolve_invariant.
(** An invariant [Inv] of the engine kept by marking cells that satisfy
    [Qm] as mines and cells that satisfy [Qs] as safe, where [Inv] makes the
    cells a sentence reports satisfy [Qm] and [Qs]. *)
Variable Inv : AI.t → Prop.
Variables Qm Qs : cell → Prop.
Hypothesis Inv_mark_mine : ∀ a c, Inv a → Qm c → Inv (AI.mark_mine c a).
Hypothesis Inv_mark_safe : ∀ a c, Inv a → Qs c → Inv (AI.mark_safe c a).
Hypothesis Inv_known_mines :
  ∀ a s c, Inv a → s ∈ AI.knowledge a → c ∈ (Sentence.known_mines s).1 → Qm c.
Hypothesis Inv_known_safes :
  ∀ a s c, Inv a → s ∈ AI.knowledge a → c ∈ (Sentence.known_safes s).1 → Qs c.

Lemma mark_mines_preserves X a :
  (∀ c, c ∈ X → Qm c) → Inv a → Inv (AI.mark_mines X a).
Proof.
  intros HX. unfold AI.mark_mines. apply (foldl_preserves Inv Qm).
  - intros ???. by apply Inv_mark_mine.
  - apply Forall_forall. intros c Hc. apply HX. by apply elem_of_elements.
Qed.

Lemma mark_safes_preserves X a :
  (∀ c, c ∈ X → Qs c) → Inv a → Inv (AI.mark_safes X a).
Proof.
  intros HX. unfold AI.mark_safes. apply (foldl_preserves Inv Qs).
  - intros ???. by apply Inv_mark_safe.
  - apply Forall_forall. intros c Hc. apply HX. by apply elem_of_elements.
Qed.

Lemma resolve_step_preserves a k : Inv a → Inv (AI.resolve_step a k).
Proof.
  intros Ha. unfold AI.resolve_step.
  destruct (AI.knowledge a !! k) as [s|] eqn:Hk; [|done].
  apply list_elem_of_lookup_2 in Hk.
  assert (Inv (if decide ((Sentence.known_mines s).1 ≠ ∅)
             then AI.mark_mines (Sentence.known_mines s).1 a else a)) as Ha1.
  { case_decide; [|done]. apply mark_mines_preserves; eauto. }
  cbv zeta. destruct (decide ((Sentence.known_safes s).1 ≠ ∅)); [|done].
  apply mark_safes_preserves; eauto.
Qed.

Lemma resolve_pass_preserves a : Inv a → Inv (AI.resolve_pass a).
Proof.
  unfold AI.resolve_pass. apply (foldl_preserves Inv (λ _, True)).
  - intros ?? H _. by apply resolve_step_preserves.
  - apply Forall_forall. intros; exact Logic.I.
Qed.
End resolve_invariant.

(** A property of sentences kept by the derivation rule holds of
    everything the subset loop appends. *)
Lemma subset_loop_Forall (P : Sentence.t → Prop) :
  (∀ s1 s2 s, P s1 → P s2 → AI.subset_body s1 s2 = AI.Append s → P s) →
  ∀ fuel i j kb kb',
    Forall P kb → AI.subset_loop fuel i j kb = Some kb' → Forall P kb'.
Proof.
  intros HP. induction fuel as [|fuel IH]; intros i j kb kb' Hkb; simpl; [done|].
  destruct (kb !! i) as [s1|] eqn:Hi; [|by intros [= <-]].
  destruct (kb !! j) as [s2|] eqn:Hj; [|by apply IH].
  destruct (AI.subset_body s1 s2) as [|s|] eqn:Hb.
  - by apply IH.
  - apply IH. apply Forall_app. split; [done|]. apply Forall_singleton.
    rewrite Forall_forall in Hkb.
    eapply HP; [| |done]; apply Hkb; by eapply list_elem_of_lookup_2.
  - by intros [= <-].
Qed.

Lemma subset_body_Append s1 s2 s :
  AI.subset_body s1 s2 = AI.Append s →
  (Sentence.count s1 ≠ 0 ∧ Sentence.count s2 ≠ 0) ∧
  Sentence.cells s1 ≠ Sentence.cells s2 ∧
  (Sentence.cells s1 ≠ ∅ ∧ Sentence.cells s2 ≠ ∅) ∧
  Sentence.cells s1 ⊆ Sentence.cells s2 ∧
  s = {| Sentence.cells := Sentence.cells s2 ∖ Sentence.cells s1;
         Sentence.count := Sentence.count s2 - Sentence.count s1 |}.
Proof.
  unfold AI.subset_body, Sentence.len. repeat case_decide; try done.
  intros [= <-]. split_and!; try done; try lia.
  - intros E. rewrite E, size_empty in *. lia.
  - intros E. rewrite E, size_empty in *. lia.
Qed.

(** ** No resolved cell stays in a sentence *)

Lemma clean_mark_mine a c : clean a → clean (AI.mark_mine c a).
Proof.
  unfold clean. simpl. rewrite Forall_fmap. intros Ha.
  eapply Forall_impl; [exact Ha|].
  intros s Hs. simpl. rewrite Sentence_cells_mark_mine. set_solver.
Qed.

Lemma clean_mark_safe a c : clean a → clean (AI.mark_safe c a).
Proof.
  unfold clean. simpl. rewrite Forall_fmap. intros Ha.
  eapply Forall_impl; [exact Ha|].
  intros s Hs. simpl. rewrite Sentence_cells_mark_safe. set_solver.
Qed.

Lemma clean_resolve_pass a : clean a → clean (AI.resolve_pass a).
Proof.
  apply (resolve_pass_preserves clean (λ _, True) (λ _, True)); auto.
  - intros. by apply clean_mark_mine.
  - intros. by apply clean_mark_safe.
Qed.

Lemma clean_subset_pass fuel a a' :
  clean a → AI.subset_pass fuel a = Some a' → clean a'.
Proof.
  unfold AI.subset_pass, clean. intros Ha H.
  destruct (AI.subset_loop fuel 0 0 (AI.knowledge a)) as [kb|] eqn:Hl; [|done].
  simpl in H. injection H as <-. simpl.
  eapply subset_loop_Forall; [|exact Ha|exact Hl].
  intros s1 s2 s H1 H2 Hs. simpl in *.
  apply subset_body_Append in Hs as (_ & _ & _ & _ & ->). simpl. set_solver.
Qed.

Lemma new_sentence_cells a c n ij :
  ij ∈ Sentence.cells (AI.new_sentence a c n) →
  ij ∈ around c ∧ ij ≠ c ∧ in_bounds (AI.height a) (AI.width a) ij ∧
  (ij ∉ AI.mines a) ∧ (ij ∉ AI.safes a).
Proof.
  unfold AI.new_sentence. simpl.
  assert (∀ l acc, ij ∈ (foldl (AI.neighbour_step a c) acc l).1 →
    ij ∈ acc.1 ∨ (ij ∈ l ∧ ij ≠ c ∧ in_bounds (AI.height a) (AI.width a) ij ∧
                  (ij ∉ AI.mines a) ∧ (ij ∉ AI.safes a))) as H.
  { induction l as [|x l IH]; intros acc; simpl; [auto|].
    intros Hin. apply IH in Hin as [Hin|Hin]; [|set_solver].
    unfold AI.neighbour_step in Hin. repeat case_decide; simpl in Hin; set_solver. }
  intros Hin. apply H in Hin as [Hin|Hin]; [set_solver|tauto].
Qed.

Lemma clean_record_move c n a : clean a → clean (AI.record_move c n a).
Proof.
  intros Ha. unfold AI.record_move.
  set (a1 := AI.Build _ _ _ _ _ _).
  assert (clean (AI.mark_safe c a1)) as H2 by by apply clean_mark_safe.
  set (a2 := AI.mark_safe c a1) in *.
  unfold clean, AI.append. simpl. apply Forall_app. split; [exact H2|].
  apply Forall_singleton. intros ij Hij Hr.
  apply new_sentence_cells in Hij. set_solver.
Qed.

Lemma clean_add_knowledge fuel c n a a' :
  clean a → AI.add_knowledge fuel c n a = Some a' → clean a'.
Proof.
  unfold AI.add_knowledge, AI.propagate. intros Ha.
  apply clean_subset_pass, clean_resolve_pass, clean_record_move, Ha.
Qed.

(** ** Soundness with respect to a board *)

Section board.
Variable g : Minesweeper.t.

Lemma mines_among_le X : (mines_among g X ≤ size X)%nat.
Proof.
  unfold mines_among. apply subseteq_size.
  intros c. rewrite elem_of_filter. tauto.
Qed.

Lemma mines_among_remove_mine c X :
  true_mine g c → c ∈ X → mines_among g X = S (mines_among g (X ∖ {[c]})).
Proof.
  intros Hc Hin. unfold mines_among.
  assert (filter (true_mine g) X = {[c]} ∪ filter (true_mine g) (X ∖ {[c]})) as ->.
  { apply set_eq. intros x. rewrite elem_of_union, !elem_of_filter,
      elem_of_difference, elem_of_singleton.
    destruct (decide (x = c)) as [->|]; tauto. }
  rewrite size_union, size_singleton; [done|].
  intros x. rewrite elem_of_filter. set_solver.
Qed.

Lemma mines_among_remove_safe c X :
  ¬ true_mine g c → mines_among g (X ∖ {[c]}) = mines_among g X.
Proof.
  intros Hc. unfold mines_among. f_equal.
  apply set_eq. intros x. rewrite !elem_of_filter,
    elem_of_difference, elem_of_singleton.
  destruct (decide (x = c)) as [->|]; tauto.
Qed.

Lemma mines_among_difference X Y :
  X ⊆ Y → mines_among g (Y ∖ X) = (mines_among g Y - mines_among g X)%nat.
Proof.
  intros HXY. unfold mines_among.
  assert (filter (true_mine g) (Y ∖ X) = filter (true_mine g) Y ∖ filter (true_mine g) X) as ->.
  { apply set_eq. intros x.
    rewrite elem_of_difference, !elem_of_filter, elem_of_difference. tauto. }
  apply size_difference. intros x. rewrite !elem_of_filter. set_solver.
Qed.

Lemma mines_among_insert c X :
  c ∉ X →
  mines_among g ({[c]} ∪ X) =
  if decide (true_mine g c) then S (mines_among g X) else mines_among g X.
Proof.
  intros Hc. unfold mines_among. destruct (decide (true_mine g c)) as [Hm|Hm].
  - assert (filter (true_mine g) ({[c]} ∪ X) = {[c]} ∪ filter (true_mine g) X) as ->.
    { apply set_eq. intros x. rewrite elem_of_union, !elem_of_filter,
        elem_of_union, elem_of_singleton.
      destruct (decide (x = c)) as [->|]; tauto. }
    rewrite size_union, size_singleton; [done|].
    intros x. rewrite elem_of_filter. set_solver.
  - f_equal. apply set_eq. intros x.
    rewrite !elem_of_filter, elem_of_union, elem_of_singleton.
    destruct (decide (x = c)) as [->|]; tauto.
Qed.

Lemma sentence_sound_mark_mine c s :
  true_mine g c → sentence_sound g s → sentence_sound g (Sentence.mark_mine c s).
Proof.
  unfold sentence_sound, Sentence.mark_mine. intros Hc Hs.
  destruct (decide _) as [Hin|]; [|done]. simpl.
  rewrite (mines_among_remove_mine c) in Hs by done. lia.
Qed.

Lemma sentence_sound_mark_safe c s :
  ¬ true_mine g c → sentence_sound g s → sentence_sound g (Sentence.mark_safe c s).
Proof.
  unfold sentence_sound, Sentence.mark_safe. intros Hc Hs.
  destruct (decide _) as [Hin|]; [|done]. simpl.
  by rewrite mines_among_remove_safe.
Qed.

(** A sound g sentence only reports true mines and true safe cells. *)
Lemma sentence_sound_known_mines s c :
  sentence_sound g s → c ∈ (Sentence.known_mines s).1 → true_mine g c.
Proof.
  unfold sentence_sound. rewrite Sentence_known_mines_elem.
  unfold Sentence.len. intros Hs [[Hlen _] Hc].
  assert (filter (true_mine g) (Sentence.cells s) = Sentence.cells s) as E.
  { apply set_subseteq_size_eq.
    - intros x. rewrite elem_of_filter. tauto.
    - unfold mines_among in Hs. lia. }
  rewrite <- E in Hc. by apply elem_of_filter in Hc as [? _].
Qed.

Lemma sentence_sound_known_safes s c :
  sentence_sound g s → c ∈ (Sentence.known_safes s).1 → ¬ true_mine g c.
Proof.
  unfold sentence_sound. rewrite Sentence_known_safes_elem.
  intros Hs [Hz Hc] Hm.
  assert (filter (true_mine g) (Sentence.cells s) ≡ ∅) as E.
  { apply size_empty_iff. unfold mines_among in Hs. lia. }
  assert (c ∈ filter (true_mine g) (Sentence.cells s)) as Hin
    by by apply elem_of_filter.
  set_solver.
Qed.

Lemma sentence_sound_derived s1 s2 s :
  sentence_sound g s1 → sentence_sound g s2 →
  AI.subset_body s1 s2 = AI.Append s → sentence_sound g s.
Proof.
  unfold sentence_sound. intros H1 H2 Hs.
  apply subset_body_Append in Hs as (_ & _ & _ & Hsub & ->). simpl.
  rewrite mines_among_difference by done.
  assert (mines_among g (Sentence.cells s1) ≤ mines_among g (Sentence.cells s2))%nat.
  { unfold mines_among. apply subseteq_size.
    intros x. rewrite !elem_of_filter. set_solver. }
  lia.
Qed.

Lemma sound_mark_mine a c : sound g a → true_mine g c → sound g (AI.mark_mine c a).
Proof.
  intros [] Hc. split; simpl; try done.
  - intros x. rewrite elem_of_union, elem_of_singleton. intros [->|]; auto.
  - rewrite Forall_fmap. eapply Forall_impl; [done|].
    intros s. by apply sentence_sound_mark_mine.
Qed.

Lemma sound_mark_safe a c : sound g a → ¬ true_mine g c → sound g (AI.mark_safe c a).
Proof.
  intros [] Hc. split; simpl; try done.
  - intros x. rewrite elem_of_union, elem_of_singleton. intros [->|]; auto.
  - rewrite Forall_fmap. eapply Forall_impl; [done|].
    intros s. by apply sentence_sound_mark_safe.
Qed.

Lemma sound_resolve_pass a : sound g a → sound g (AI.resolve_pass a).
Proof.
  apply (resolve_pass_preserves (sound g) (true_mine g) (λ c, ¬ true_mine g c)).
  - apply sound_mark_mine.
  - apply sound_mark_safe.
  - intros a' s c [] Hs. apply sentence_sound_known_mines.
    by eapply (proj1 (Forall_forall _ _)).
  - intros a' s c [] Hs. apply sentence_sound_known_safes.
    by eapply (proj1 (Forall_forall _ _)).
Qed.

Lemma sound_subset_pass fuel a a' :
  sound g a → AI.subset_pass fuel a = Some a' → sound g a'.
Proof.
  unfold AI.subset_pass. intros [] H.
  destruct (AI.subset_loop fuel 0 0 (AI.knowledge a)) as [kb|] eqn:Hl; [|done].
  simpl in H. injection H as <-. split; simpl; try done.
  eapply subset_loop_Forall; [|done|exact Hl].
  intros s1 s2 s. apply sentence_sound_derived.
Qed.
End board.

(** ** Observations that tell the truth about a board *)

Section observe.
Variable g : Minesweeper.t.

Lemma nearby_fold_None c l : foldl (Minesweeper.nearby_step g c) None l = None.
Proof. induction l; simpl; auto. Qed.

Lemma nearby_step_Some c k ij k' :
  Minesweeper.nearby_step g c (Some k) ij = Some k' →
  k' = k + (if decide (ij ≠ c ∧ true_mine g ij) then 1 else 0).
Proof.
  unfold Minesweeper.nearby_step. simpl.
  destruct (decide (ij ≠ c ∧ true_mine g ij)) as [[Hne [Hb Hm]]|Hno].
  - rewrite decide_False, decide_True, Hm by done. simpl. by intros [= <-].
  - destruct (decide (ij = c)) as [->|Hne]; [intros [= <-]; lia|].
    destruct (decide (in_bounds _ _ ij)) as [Hb|Hb]; [|intros [= <-]; lia].
    destruct (Minesweeper.is_mine g ij) as [[]|] eqn:Hm; simpl; intros [= <-].
    + destruct Hno. by split.
    + lia.
Qed.

(** The two loops over the neighbours, side by side: what the engine
    subtracts from the count and leaves out of the cells accounts for the
    mines it already knows. *)
Lemma neighbour_loop_sound a c :
  sound g a → ∀ l k n X m,
  NoDup l → (∀ x, x ∈ l → x ∉ X) →
  foldl (Minesweeper.nearby_step g c) (Some k) l = Some n →
  (foldl (AI.neighbour_step a c) (X, m) l).2
    - Z.of_nat (mines_among g (foldl (AI.neighbour_step a c) (X, m) l).1)
  = m - Z.of_nat (mines_among g X) - (n - k).
Proof.
  intros [Hh Hw Hmines Hsafes _].
  induction l as [|ij l IH]; intros k n X m Hnd Hfresh; cbn [foldl].
  { simpl. intros [= <-]. lia. }
  apply NoDup_cons in Hnd as [Hij Hnd].
  destruct (Minesweeper.nearby_step g c (Some k) ij) as [k1|] eqn:Hk1;
    [|by rewrite nearby_fold_None].
  apply nearby_step_Some in Hk1. intros Hn.
  destruct (AI.neighbour_step a c (X, m) ij) as [X1 m1] eqn:Hstep.
  assert (X1 ⊆ {[ij]} ∪ X ∧
          m1 - Z.of_nat (mines_among g X1) =
          m - Z.of_nat (mines_among g X) - (k1 - k)) as [HX1 Hm1].
  { assert (ij ∉ X) as HijX by (apply Hfresh; left).
    unfold AI.neighbour_step in Hstep. simpl in Hstep.
    rewrite Hh, Hw in Hstep. subst k1.
    destruct (decide (ij = c)) as [->|Hne].
    { injection Hstep as <- <-. split; [set_solver|].
      destruct (decide _); [tauto|lia]. }
    destruct (decide (ij ∈ AI.mines a)) as [Hm|Hm].
    - pose proof (Hmines _ Hm) as Htm. pose proof Htm as [Hb _].
      rewrite decide_True in Hstep by done.
      rewrite decide_False in Hstep by tauto.
      injection Hstep as <- <-. split; [set_solver|].
      rewrite decide_True by done. lia.
    - destruct (decide (true_mine g ij)) as [Htm|Htm].
      + pose proof Htm as [Hb _].
        assert (ij ∉ AI.safes a) as Hs by (intros Hs; by apply Hsafes in Hs).
        rewrite decide_True in Hstep by done.
        rewrite decide_True in Hstep by done.
        injection Hstep as <- <-. split; [set_solver|].
        rewrite mines_among_insert by done.
        rewrite !decide_True by done. lia.
      + rewrite (decide_False (P := _ ∧ true_mine g ij)) by tauto.
        split.
        * repeat destruct (decide _) in Hstep; simplify_eq; set_solver.
        * assert (mines_among g X1 = mines_among g X) as ->.
          { repeat destruct (decide _) in Hstep; simplify_eq; try done.
            rewrite mines_among_insert by done. by rewrite decide_False. }
          repeat destruct (decide _) in Hstep; simplify_eq; lia. }
  rewrite (IH k1 n X1 m1); [lia|done| |done].
  intros x Hx HxX. apply HX1 in HxX.
  apply elem_of_union in HxX as [HxX|HxX].
  - apply elem_of_singleton in HxX. by subst.
  - eapply Hfresh; [by right|done].
Qed.

Lemma sentence_sound_new a c n :
  sound g a → Minesweeper.nearby_mines g c = Some n →
  sentence_sound g (AI.new_sentence a c n).
Proof.
  intros Ha Hn. unfold sentence_sound, AI.new_sentence. simpl.
  pose proof (neighbour_loop_sound a c Ha (around c) 0 n ∅ n
                (NoDup_around c)) as H.
  unfold Minesweeper.nearby_mines in Hn.
  specialize (H ltac:(set_solver) Hn).
  assert (mines_among g ∅ = 0%nat) as E.
  { unfold mines_among. apply size_empty_iff. apply filter_empty. }
  rewrite E in H. lia.
Qed.

Lemma sound_record_move a c n :
  sound g a → Minesweeper.is_mine g c = Some false →
  Minesweeper.nearby_mines g c = Some n →
  sound g (AI.record_move c n a).
Proof.
  intros Ha Hc Hn. unfold AI.record_move.
  set (a1 := AI.Build _ _ _ _ _ _).
  assert (sound g a1) as H1 by (by destruct Ha).
  assert (sound g (AI.mark_safe c a1)) as H2.
  { apply sound_mark_safe; [done|]. intros [_ E]. congruence. }
  set (a2 := AI.mark_safe c a1) in *.
  pose proof (sentence_sound_new a2 c n H2 Hn).
  destruct H2. split; simpl; try done.
  apply Forall_app. split; [done|]. by apply Forall_singleton.
Qed.

Lemma sound_add_knowledge fuel c n a a' :
  sound g a → truthful g c n → AI.add_knowledge fuel c n a = Some a' → sound g a'.
Proof.
  unfold AI.add_knowledge, AI.propagate. intros Ha (_ & Hc & Hn).
  apply sound_subset_pass, sound_resolve_pass. by apply sound_record_move.
Qed.

Lemma sound_init : sound g (AI.init (Minesweeper.height g) (Minesweeper.width g)).
Proof. split; simpl; try done. Qed.

Lemma reachable_sound a : reachable g a → sound g a.
Proof.
  induction 1 as [|a fuel c n a' _ IH Hobs Hadd]; [apply sound_init|].
  by eapply sound_add_knowledge.
Qed.

Lemma reachable_clean a : reachable g a → clean a.
Proof.
  induction 1 as [|a fuel c n a' _ IH Hobs Hadd].
  - unfold clean. simpl. constructor.
  - by eapply clean_add_knowledge.
Qed.
End observe.

(** ** The subset loop returns *)

(** More fuel does not change a result. *)
Lemma subset_loop_mono fuel fuel' i j kb kb' :
  AI.subset_loop fuel i j kb = Some kb' → (fuel ≤ fuel')%nat →
  AI.subset_loop fuel' i j kb = Some kb'.
Proof.
  revert fuel' i j kb. induction fuel as [|fuel IH]; intros fuel' i j kb; [done|].
  destruct fuel' as [|fuel']; [lia|]. simpl. intros H Hle.
  destruct (kb !! i); [|done]. destruct (kb !! j); [|apply IH; [done|lia]].
  destruct (AI.subset_body _ _); [apply IH|apply IH|]; first [done|lia].
Qed.

Lemma nact_app l1 l2 : nact (l1 ++ l2) = (nact l1 + nact l2)%nat.
Proof. unfold nact. by rewrite filter_app, length_app. Qed.

Lemma nact_cons s l :
  nact (s :: l) = ((if decide (active s) then 1 else 0) + nact l)%nat.
Proof. unfold nact. rewrite filter_cons. by destruct (decide _). Qed.

Lemma nact_inactive l : Forall (λ s, ¬ active s) l → nact l = 0%nat.
Proof.
  induction 1 as [|s l Hs _ IH]; [done|].
  rewrite nact_cons, IH. by rewrite decide_False.
Qed.

Lemma nact_take_le j l : (nact (take j l) ≤ nact l)%nat.
Proof. rewrite <- (take_drop j l) at 2. rewrite nact_app. lia. Qed.

Lemma nact_take_S j l s :
  l !! j = Some s →
  nact (take (S j) l) = (nact (take j l) + if decide (active s) then 1 else 0)%nat.
Proof.
  intros H. rewrite (take_S_r _ _ _ H), nact_app, nact_cons.
  change (nact []) with 0%nat. destruct (decide _); lia.
Qed.

Lemma nact_drop i l s :
  l !! i = Some s →
  nact (drop i l) = ((if decide (active s) then 1 else 0) + nact (drop (S i) l))%nat.
Proof. intros H. by rewrite (drop_S _ _ _ H), nact_cons. Qed.

Lemma subset_body_Append_active s1 s2 s :
  AI.subset_body s1 s2 = AI.Append s →
  active s1 ∧ active s2 ∧ Sentence.cells s ≠ ∅ ∧
  Sentence.cells s ## Sentence.cells s1.
Proof.
  intros H. apply subset_body_Append in H as ([??] & Hne & [??] & Hsub & ->).
  simpl. split_and!; try done; [|set_solver].
  intros E. apply Hne. apply set_eq. intros x. split; [set_solver|].
  intros Hx. destruct (decide (x ∈ Sentence.cells s1)); [done|]. set_solver.
Qed.

(** A sentence appended while [set1] is the outer sentence is disjoint from
    it: the body skips it when its count is zero and returns otherwise. *)
Lemma subset_body_blocked s1 s2 :
  active s1 → Sentence.cells s2 ≠ ∅ →
  Sentence.cells s2 ## Sentence.cells s1 →
  (AI.subset_body s1 s2 = AI.Continue ∧ ¬ active s2) ∨
  AI.subset_body s1 s2 = AI.Return.
Proof.
  intros [Hc1 Hn1] Hn2 Hd. unfold AI.subset_body, Sentence.len.
  destruct (decide (_ ∨ _)) as [[?|Hz]|Hnz]; [done| |].
  { left. split; [done|]. by intros [? _]. }
  destruct (decide (Sentence.cells s1 = Sentence.cells s2)) as [E|_].
  { exfalso. apply Hn2. set_solver. }
  destruct (decide (_ ∨ _)) as [[Hz|Hz]|_].
  - exfalso. apply Hn1, leibniz_equiv, size_empty_iff. lia.
  - exfalso. apply Hn2, leibniz_equiv, size_empty_iff. lia.
  - destruct (decide (_ ⊆ _)) as [Hsub|]; [|by right].
    exfalso. apply Hn1. set_solver.
Qed.

Section subset_termination.
Variables a N : nat.

Lemma loop_inv_outer_lookup i j kb pre ext x :
  loop_inv a N i j kb pre ext → kb !! i = Some x → pre !! i = Some x.
Proof.
  intros [-> _ _ _ _ Hb _ _] Hx. destruct ext as [|z ext].
  - by rewrite app_nil_r in Hx.
  - apply Forall_cons in Hb as [[_ (x' & Hx' & _)] _].
    rewrite (lookup_app_l_Some _ _ _ _ Hx') in Hx. congruence.
Qed.

Lemma loop_inv_ext_bound i j kb pre ext x :
  loop_inv a N i j kb pre ext → pre !! i = Some x →
  (length ext ≤ if decide (active x) then a else 0)%nat.
Proof.
  intros [_ _ _ Ha _ Hb _ Hc] Hx.
  pose proof (nact_take_le j pre).
  destruct ext as [|z ext]; [simpl; lia|].
  apply Forall_cons in Hb as [[_ (x' & Hx' & Hact & _)] _].
  assert (x' = x) as -> by congruence.
  rewrite decide_True by done. lia.
Qed.

Lemma loop_inv_length i j kb pre ext x :
  loop_inv a N i j kb pre ext → pre !! i = Some x → (length kb ≤ N)%nat.
Proof.
  intros Hinv Hx. pose proof (loop_inv_ext_bound _ _ _ _ _ _ Hinv Hx) as He.
  destruct Hinv as [-> _ _ _ Hbud _ _ _].
  rewrite (nact_drop _ _ _ Hx) in Hbud. rewrite length_app.
  destruct (decide (active x)); nia.
Qed.

Lemma loop_inv_next i j kb pre ext x :
  loop_inv a N i j kb pre ext → kb !! i = Some x → kb !! j = None →
  loop_inv a N (S i) 0 kb kb [].
Proof.
  intros Hinv Hi Hj.
  pose proof (loop_inv_outer_lookup _ _ _ _ _ _ Hinv Hi) as Hx.
  pose proof (loop_inv_ext_bound _ _ _ _ _ _ Hinv Hx) as He.
  destruct Hinv as [-> Hout Hin Ha Hbud Hb Hs Hc].
  apply lookup_ge_None in Hj. rewrite length_app in Hj, Hin.
  rewrite take_ge in Hs by lia.
  pose proof (nact_inactive _ Hs) as Hext.
  apply lookup_lt_Some in Hx.
  split.
  - by rewrite app_nil_r.
  - rewrite length_app. lia.
  - lia.
  - rewrite nact_app. lia.
  - rewrite drop_app, nact_app, length_app.
    assert (nact (drop (S i - length pre) ext) = 0%nat) as ->.
    { apply nact_inactive. by apply Forall_drop. }
    destruct (pre !! i) as [x'|] eqn:Hx'; [|by apply lookup_ge_None in Hx'; lia].
    rewrite (nact_drop _ _ _ Hx') in Hbud.
    assert (x' = x) as ->.
    { rewrite (lookup_app_l_Some _ _ _ _ Hx') in Hi. congruence. }
    destruct (decide (active x)); nia.
  - constructor.
  - constructor.
  - simpl. lia.
Qed.

Lemma loop_inv_continue i j kb pre ext x y :
  loop_inv a N i j kb pre ext → kb !! i = Some x → kb !! j = Some y →
  AI.subset_body x y = AI.Continue →
  loop_inv a N i (S j) kb pre ext.
Proof.
  intros Hinv Hi Hj Hbody.
  pose proof (loop_inv_outer_lookup _ _ _ _ _ _ Hinv Hi) as Hx.
  destruct Hinv as [-> Hout Hin Ha Hbud Hb Hs Hc].
  pose proof (lookup_lt_Some _ _ _ Hj) as Hlt.
  split; [done|done|lia|done|done|done| |].
  - destruct (decide (j < length pre)%nat) as [Hjm|Hjm].
    { replace (S j - length pre)%nat with 0%nat by lia. constructor. }
    rewrite lookup_app_r in Hj by lia.
    replace (S j - length pre)%nat with (S (j - length pre)) by lia.
    rewrite (take_S_r _ _ _ Hj). apply Forall_app. split; [done|].
    apply Forall_singleton.
    pose proof (Forall_lookup_1 _ _ _ _ Hb Hj) as (Hne & x' & Hx' & Hact & Hd).
    assert (x' = x) as -> by congruence.
    destruct (subset_body_blocked x y Hact Hne Hd) as [[_ ?]|E]; [done|].
    congruence.
  - destruct (pre !! j) as [y'|] eqn:Hy.
    + rewrite (nact_take_S _ _ _ Hy). lia.
    + apply lookup_ge_None in Hy. rewrite take_ge in Hc |- * by lia. done.
Qed.

Lemma loop_inv_append i j kb pre ext x y z :
  loop_inv a N i j kb pre ext → kb !! i = Some x → kb !! j = Some y →
  AI.subset_body x y = AI.Append z →
  loop_inv a N i (S j) (kb ++ [z]) pre (ext ++ [z]).
Proof.
  intros Hinv Hi Hj Hbody.
  pose proof (loop_inv_outer_lookup _ _ _ _ _ _ Hinv Hi) as Hx.
  destruct Hinv as [-> Hout Hin Ha Hbud Hb Hs Hc].
  pose proof (lookup_lt_Some _ _ _ Hj) as Hlt.
  pose proof (subset_body_Append_active _ _ _ Hbody) as (Hax & Hay & Hne & Hd).
  assert (j < length pre)%nat as Hjm.
  { destruct (decide (j < length pre)%nat) as [|Hjm]; [done|exfalso].
    rewrite lookup_app_r in Hj by lia.
    pose proof (Forall_lookup_1 _ _ _ _ Hb Hj) as (Hne' & x' & Hx' & Hact & Hd').
    assert (x' = x) as -> by congruence.
    destruct (subset_body_blocked x y Hact Hne' Hd') as [[E _]|E]; congruence. }
  rewrite lookup_app_l in Hj by done.
  split.
  - by rewrite <- app_assoc.
  - done.
  - rewrite length_app. simpl. lia.
  - done.
  - done.
  - apply Forall_app. split; [done|]. apply Forall_singleton.
    split; [done|]. by exists x.
  - replace (S j - length pre)%nat with 0%nat by lia. constructor.
  - rewrite (nact_take_S _ _ _ Hj), length_app, decide_True by done.
    simpl. lia.
Qed.

Lemma subset_loop_returns_from fuel : ∀ i j kb pre ext,
  loop_inv a N i j kb pre ext →
  ((N + 1 - i) * (N + 2) + (N + 1 - j) < fuel)%nat →
  ∃ kb', AI.subset_loop fuel i j kb = Some kb'.
Proof.
  induction fuel as [|fuel IH]; intros i j kb pre ext Hinv Hfuel;
    [by apply Nat.nlt_0_r in Hfuel|].
  simpl. destruct (kb !! i) as [x|] eqn:Hi; [|by eexists].
  pose proof (loop_inv_outer_lookup _ _ _ _ _ _ Hinv Hi) as Hx.
  pose proof (loop_inv_length _ _ _ _ _ _ Hinv Hx) as Hlen.
  pose proof (lookup_lt_Some _ _ _ Hi) as Hilt.
  destruct (kb !! j) as [y|] eqn:Hj.
  - pose proof (lookup_lt_Some _ _ _ Hj) as Hjlt.
    destruct (AI.subset_body x y) as [|z|] eqn:Hbody; [| |by eexists].
    + eapply IH; [by eapply loop_inv_continue|].
      set (P := ((N + 1 - i) * (N + 2))%nat) in *. lia.
    + eapply IH; [by eapply loop_inv_append|].
      set (P := ((N + 1 - i) * (N + 2))%nat) in *. lia.
  - eapply IH; [by eapply loop_inv_next|].
    replace (N + 1 - i)%nat with (S (N + 1 - S i)) in Hfuel by lia.
    rewrite Nat.mul_succ_l in Hfuel.
    set (P := ((N + 1 - S i) * (N + 2))%nat) in *. lia.
Qed.
End subset_termination.

Theorem subset_loop_returns kb :
  ∃ kb', ∀ fuel, (subset_fuel kb ≤ fuel)%nat →
    AI.subset_loop fuel 0 0 kb = Some kb'.
Proof.
  set (N := (length kb + nact kb * nact kb)%nat).
  destruct (subset_loop_returns_from (nact kb) N (subset_fuel kb) 0 0 kb kb [])
    as [kb' Hkb'].
  - split; simpl.
    + by rewrite app_nil_r.
    + lia.
    + lia.
    + done.
    + rewrite drop_0. unfold N. lia.
    + constructor.
    + constructor.
    + lia.
  - unfold subset_fuel. fold N. rewrite !Nat.sub_0_r. lia.
  - exists kb'. intros fuel Hle. by eapply subset_loop_mono.
Qed.

(** X9: [add_knowledge] returns, whatever the state and the observation:
    the two loops that append to the list they iterate over come to an
    end, and every larger fuel gives the same state. *)
Theorem add_knowledge_returns c n a :
  ∃ a' fuel0, ∀ fuel, (fuel0 ≤ fuel)%nat → AI.add_knowledge fuel c n a = Some a'.
Proof.
  unfold AI.add_knowledge, AI.propagate, AI.subset_pass.
  set (a1 := AI.resolve_pass (AI.record_move c n a)).
  destruct (subset_loop_returns (AI.knowledge a1)) as [kb' Hkb'].
  eexists _, (subset_fuel (AI.knowledge a1)). intros fuel Hle.
  rewrite (Hkb' fuel Hle). simpl. reflexivity.
Qed.

Lemma propagate_mono fuel fuel' a a' :
  AI.propagate fuel a = Some a' → (fuel ≤ fuel')%nat →
  AI.propagate fuel' a = Some a'.
Proof.
  unfold AI.propagate, AI.subset_pass. intros H Hle.
  destruct (AI.subset_loop fuel _ _ _) as [kb|] eqn:Hl; [|done].
  by rewrite (subset_loop_mono _ _ _ _ _ _ Hl Hle).
Qed.

Lemma add_knowledge_mono fuel fuel' c n a a' :
  AI.add_knowledge fuel c n a = Some a' → (fuel ≤ fuel')%nat →
  AI.add_knowledge fuel' c n a = Some a'.
Proof. apply propagate_mono. Qed.

(** The live set behind [safe] is not changed before [if safe:] reads it. *)
Lemma resolve_step_safe_alias a k s :
  AI.knowledge a !! k = Some s → Sentence.count s = 0 →
  AI.knowledge
    (if decide ((Sentence.known_mines s).1 ≠ ∅)
     then AI.mark_mines (Sentence.known_mines s).1 a else a) !! k = Some s.
Proof.
  intros Hk Hz. unfold Sentence.known_mines.
  rewrite (decide_False (P := _ ∧ _)) by tauto. simpl.
  by rewrite decide_False by auto.
Qed.

(** ** Iterating over a set

    [for cells in mine.copy()] visits the cells in the order of the set's
    hash table.  Marking two cells commutes, so every order gives the state
    that the order of [elements] gives. *)

Lemma Sentence_mark_mine_comm c1 c2 s :
  Sentence.mark_mine c1 (Sentence.mark_mine c2 s) =
  Sentence.mark_mine c2 (Sentence.mark_mine c1 s).
Proof.
  destruct (decide (c1 = c2)) as [->|Hne]; [done|].
  unfold Sentence.mark_mine.
  repeat (destruct (decide _) as [?|?]; simpl in * );
    try done; try (exfalso; set_solver).
  f_equal. set_solver.
Qed.

Lemma Sentence_mark_safe_comm c1 c2 s :
  Sentence.mark_safe c1 (Sentence.mark_safe c2 s) =
  Sentence.mark_safe c2 (Sentence.mark_safe c1 s).
Proof.
  destruct (decide (c1 = c2)) as [->|Hne]; [done|].
  unfold Sentence.mark_safe.
  repeat (destruct (decide _) as [?|?]; simpl in * );
    try done; try (exfalso; set_solver).
  f_equal. set_solver.
Qed.

Lemma AI_mark_mine_comm c1 c2 a :
  AI.mark_mine c1 (AI.mark_mine c2 a) = AI.mark_mine c2 (AI.mark_mine c1 a).
Proof.
  unfold AI.mark_mine. simpl. f_equal; [set_solver|].
  rewrite <- !list_fmap_compose. apply list_fmap_ext.
  intros _ s _. apply Sentence_mark_mine_comm.
Qed.

Lemma AI_mark_safe_comm c1 c2 a :
  AI.mark_safe c1 (AI.mark_safe c2 a) = AI.mark_safe c2 (AI.mark_safe c1 a).
Proof.
  unfold AI.mark_safe. simpl. f_equal; [set_solver|].
  rewrite <- !list_fmap_compose. apply list_fmap_ext.
  intros _ s _. apply Sentence_mark_safe_comm.
Qed.

Lemma foldl_commute_permutation {A B} (f : A → B → A) l1 l2 :
  (∀ a x y, f (f a x) y = f (f a y) x) →
  l1 ≡ₚ l2 → ∀ a, foldl f a l1 = foldl f a l2.
Proof.
  intros Hf. induction 1 as [|x l1 l2 _ IH|x y l|l1 l2 l3 _ IH1 _ IH2];
    intros a; simpl.
  - done.
  - apply IH.
  - by rewrite Hf.
  - by rewrite IH1.
Qed.

Lemma mark_mines_any_order X a l :
  l ≡ₚ elements X → foldl (λ a c, AI.mark_mine c a) a l = AI.mark_mines X a.
Proof.
  intros Hl. unfold AI.mark_mines. apply foldl_commute_permutation; [|done].
  intros ???. apply AI_mark_mine_comm.
Qed.

Lemma mark_safes_any_order X a l :
  l ≡ₚ elements X → foldl (λ a c, AI.mark_safe c a) a l = AI.mark_safes X a.
Proof.
  intros Hl. unfold AI.mark_safes. apply foldl_commute_permutation; [|done].
  intros ???. apply AI_mark_safe_comm.
Qed.

(** ** Sentence queries *)

(** C8: [known_mines] returns all the cells of the sentence when the count
    equals the number of cells and is not zero, the empty set in every
    other case, and leaves the sentence as it was. *)
Theorem known_mines_spec (s : Sentence.t) :
  (Z.of_nat (size (Sentence.cells s)) = Sentence.count s ∧ Sentence.count s ≠ 0 →
     (Sentence.known_mines s).1 = Sentence.cells s) ∧
  (¬ (Z.of_nat (size (Sentence.cells s)) = Sentence.count s ∧ Sentence.count s ≠ 0) →
     (Sentence.known_mines s).1 = ∅) ∧
  (Sentence.known_mines s).2 = s.
Proof.
  unfold Sentence.known_mines, Sentence.len.
  destruct (decide _) as [H|H]; simpl; tauto.
Qed.

Lemma known_mines_spec_witness :
  (Sentence.known_mines (Sentence.Build {[(0, 0); (0, 1)]} 2)).1 =
  Sentence.cells (Sentence.Build {[(0, 0); (0, 1)]} 2).
Proof.
  apply (proj1 (known_mines_spec (Sentence.Build {[(0, 0); (0, 1)]} 2))).
  split; [reflexivity|discriminate].
Defined.

(** ** Move selection *)

Lemma elem_of_possibles_moves a c :
  c ∈ AI.possibles_moves a ↔
  in_bounds (AI.height a) (AI.width a) c ∧
  (c ∉ AI.moves_made a) ∧ (c ∉ AI.mines a).
Proof.
  unfold AI.possibles_moves. rewrite list_elem_of_filter, elem_of_grid. tauto.
Qed.

Lemma random_choice_elem {A} rnd (l : list A) :
  l ≠ [] → ∃ x, AI.random_choice rnd l = Some x ∧ x ∈ l.
Proof.
  intros Hl. unfold AI.random_choice.
  assert (rnd `mod` length l < length l)%nat as Hlt.
  { apply Nat.mod_upper_bound. by destruct l. }
  apply lookup_lt_is_Some in Hlt as [x Hx].
  exists x. split; [done|]. by eapply list_elem_of_lookup_2.
Qed.

(** C9: [make_random_move] returns a cell of the grid that is neither a
    move made nor a known mine whenever there is one, and [None] exactly
    when every cell of the grid is a move made or a known mine. *)
Theorem make_random_move_spec (rnd : nat) (a : AI.t) :
  ((∃ c, in_bounds (AI.height a) (AI.width a) c ∧
         (c ∉ AI.moves_made a) ∧ (c ∉ AI.mines a)) →
   ∃ c, (AI.make_random_move rnd a).1 = Some c ∧
        in_bounds (AI.height a) (AI.width a) c ∧
        (c ∉ AI.moves_made a) ∧ (c ∉ AI.mines a)) ∧
  ((AI.make_random_move rnd a).1 = None ↔
   ∀ c, in_bounds (AI.height a) (AI.width a) c →
        c ∈ AI.moves_made a ∨ c ∈ AI.mines a).
Proof.
  unfold AI.make_random_move.
  destruct (AI.possibles_moves a) as [|c0 l] eqn:Hl.
  - simpl. split.
    + intros (c & Hc). apply elem_of_possibles_moves in Hc.
      rewrite Hl in Hc. by apply elem_of_nil in Hc.
    + split; [|done]. intros _ c Hb.
      destruct (decide (c ∈ AI.moves_made a)); [by left|].
      destruct (decide (c ∈ AI.mines a)); [by right|].
      assert (c ∈ AI.possibles_moves a) as Hc by by apply elem_of_possibles_moves.
      rewrite Hl in Hc. by apply elem_of_nil in Hc.
  - rewrite decide_True by done. simpl.
    destruct (random_choice_elem rnd (c0 :: l)) as (x & Hx & Hin); [done|].
    rewrite <- Hl in Hin. apply elem_of_possibles_moves in Hin.
    rewrite Hx. split.
    + intros _. by exists x.
    + split; [done|]. intros Hall. exfalso.
      destruct Hin as (Hb & Hm & Hk). destruct (Hall x Hb); done.
Qed.

Lemma make_random_move_spec_witness :
  ∃ c, (AI.make_random_move 7 (AI.init 2 2)).1 = Some c ∧
       in_bounds 2 2 c ∧ (c ∉ (∅ : gset cell)) ∧ (c ∉ (∅ : gset cell)).
Proof.
  apply (proj1 (make_random_move_spec 7 (AI.init 2 2))).
  exists (0, 0). unfold in_bounds. simpl. split; [lia|]. split; apply not_elem_of_empty.
Defined.

(** C10: [make_random_move] leaves the engine as it was: the moves made,
    the known mines, the known safe cells and every sentence. *)
Theorem make_random_move_frame (rnd : nat) (a : AI.t) :
  (AI.make_random_move rnd a).2 = a.
Proof. unfold AI.make_random_move. by destruct (decide _). Qed.

(** ** Invariants of the reachable states *)

(** C4: in every state reached by truthful observations, the count of every
    sentence lies between zero and the number of its cells. *)
Theorem count_within_cells (g : Minesweeper.t) (a : AI.t) (s : Sentence.t) :
  reachable g a → s ∈ AI.knowledge a →
  0 ≤ Sentence.count s ≤ Z.of_nat (size (Sentence.cells s)).
Proof.
  intros Hr Hs. apply reachable_sound in Hr as [_ _ _ _ Hk].
  rewrite Forall_forall in Hk. specialize (Hk s Hs). unfold sentence_sound in Hk.
  pose proof (mines_among_le g (Sentence.cells s)). lia.
Qed.

(** C5: in every state reached by truthful observations, no known mine and
    no known safe cell is a cell of a sentence. *)
Theorem resolved_cells_left_sentences
    (g : Minesweeper.t) (a : AI.t) (s : Sentence.t) (c : cell) :
  reachable g a → s ∈ AI.knowledge a →
  c ∈ AI.mines a ∨ c ∈ AI.safes a → c ∉ Sentence.cells s.
Proof.
  intros Hr Hs Hc Hin. apply reachable_clean in Hr.
  unfold clean in Hr. rewrite Forall_forall in Hr.
  specialize (Hr s Hs). set_solver.
Qed.

(** C6: in every state reached by truthful observations, the known mines
    and the known safe cells are disjoint. *)
Theorem mines_safes_disjoint (g : Minesweeper.t) (a : AI.t) :
  reachable g a → AI.mines a ## AI.safes a.
Proof.
  intros Hr. apply reachable_sound in Hr as [_ _ Hm Hs _].
  intros c Hcm Hcs. by apply (Hs c Hcs), Hm.
Qed.

(** ** A one-row board *)

Local Ltac by_compute :=
  match goal with
  | |- ?P => apply (bool_decide_unpack P); vm_compute; reflexivity
  end.

Local Ltac solve_truthful :=
  unfold truthful, in_bounds; simpl; split_and!; first [lia | vm_compute; reflexivity].

Lemma line_state1_reachable : reachable line_board line_state1.
Proof.
  apply (reachable_observe line_board (AI.init 1 4) 4 (0, 1) 1).
  - apply (reachable_init line_board).
  - solve_truthful.
  - vm_compute. reflexivity.
Qed.

Lemma line_state2_reachable : reachable line_board line_state2.
Proof.
  apply (reachable_observe line_board line_state1 7 (0, 3) 1).
  - apply line_state1_reachable.
  - solve_truthful.
  - vm_compute. reflexivity.
Qed.

Lemma count_within_cells_witness :
  0 ≤ Sentence.count (Sentence.Build {[(0, 0); (0, 2)]} 1)
    ≤ Z.of_nat (size (Sentence.cells (Sentence.Build {[(0, 0); (0, 2)]} 1))).
Proof.
  apply (count_within_cells line_board line_state1).
  - apply line_state1_reachable.
  - unfold line_state1. simpl. apply list_elem_of_singleton. reflexivity.
Defined.

Lemma resolved_cells_left_sentences_witness :
  (0, 2) ∉ Sentence.cells (Sentence.Build {[(0, 0)]} 0).
Proof.
  apply (resolved_cells_left_sentences line_board line_state2).
  - apply line_state2_reachable.
  - unfold line_state2. simpl. apply list_elem_of_here.
  - left. unfold line_state2. simpl. apply elem_of_singleton. reflexivity.
Defined.

Lemma mines_safes_disjoint_witness :
  AI.mines line_state2 ## AI.safes line_state2.
Proof. apply (mines_safes_disjoint line_board), line_state2_reachable. Defined.

(** ** Scenarios *)

Lemma propagate_deterministic fuel1 fuel2 a a1 a2 :
  AI.propagate fuel1 a = Some a1 → AI.propagate fuel2 a = Some a2 → a1 = a2.
Proof.
  intros H1 H2. destruct (Nat.le_ge_cases fuel1 fuel2) as [Hle|Hle].
  - rewrite (propagate_mono _ _ _ _ H1 Hle) in H2. congruence.
  - rewrite (propagate_mono _ _ _ _ H2 Hle) in H1. congruence.
Qed.

(** C7: on an empty engine for an 8 by 8 grid, [add_knowledge((1, 1), 0)]
    returns with the eight neighbours of [(1, 1)] among the safe cells. *)
Theorem no_mines_around_all_safe :
  ∃ a', (∀ fuel, AI.add_knowledge (3 + fuel) (1, 1) 0 (AI.init 8 8) = Some a') ∧
    {[(0, 0); (0, 1); (0, 2); (1, 0); (1, 2); (2, 0); (2, 1); (2, 2)]}
      ⊆ AI.safes a'.
Proof.
  exists (AI.Build 8 8 {[(1, 1)]} ∅
            {[(0, 0); (0, 1); (0, 2); (1, 0); (1, 1); (1, 2); (2, 0); (2, 1); (2, 2)]}
            [Sentence.Build ∅ 0]).
  split.
  - intros fuel. apply (add_knowledge_mono 3); [|lia]. vm_compute. reflexivity.
  - by_compute.
Qed.

(** C1: on the one-row board, [add_knowledge((0, 3), 1)] returns with the
    sentence [{(0, 0)} = 0] in the knowledge base and [(0, 0)] not marked
    safe: the direct pass had left that sentence behind when the mine at
    [(0, 2)] was found.  One more direct pass marks [(0, 0)] safe, so the
    state returned is not a fixed point. *)
Theorem add_knowledge_stops_before_fixed_point :
  reachable line_board line_state1 ∧
  truthful line_board (0, 3) 1 ∧
  AI.add_knowledge 7 (0, 3) 1 line_state1 = Some line_state2 ∧
  Sentence.Build {[(0, 0)]} 0 ∈ AI.knowledge line_state2 ∧
  ((0, 0) ∉ AI.safes line_state2) ∧
  (0, 0) ∈ AI.safes (AI.resolve_pass line_state2) ∧
  ¬ fixed_point line_state2.
Proof.
  split_and!.
  - apply line_state1_reachable.
  - solve_truthful.
  - vm_compute. reflexivity.
  - apply list_elem_of_here.
  - by_compute.
  - by_compute.
  - intros (fuel & a' & Hp & _ & Hs & _).
    assert (AI.propagate 7 line_state2 =
            Some (AI.Build 1 4 {[(0, 1); (0, 3)]} {[(0, 2)]}
                    {[(0, 0); (0, 1); (0, 3)]}
                    [Sentence.Build ∅ 0; Sentence.Build ∅ 0])) as H7
      by (vm_compute; reflexivity).
    rewrite <- (propagate_deterministic _ _ _ _ _ H7 Hp) in Hs.
    assert ((0, 0) ∈ AI.safes line_state2) as Hin by (rewrite <- Hs; by_compute).
    revert Hin. change ((0, 0) ∉ AI.safes line_state2). by_compute.
Qed.

(** ** A two-row board *)

Lemma corner_state1_reachable : reachable corner_board corner_state1.
Proof.
  apply (reachable_observe corner_board (AI.init 2 3) 4 (0, 1) 1).
  - apply (reachable_init corner_board).
  - solve_truthful.
  - vm_compute. reflexivity.
Qed.

Lemma corner_state2_reachable : reachable corner_board corner_state2.
Proof.
  apply (reachable_observe corner_board corner_state1 4 (0, 0) 1).
  - apply corner_state1_reachable.
  - solve_truthful.
  - vm_compute. reflexivity.
Qed.

(** C2: on the two-row board the engine reaches a knowledge base that holds
    [{(1,0),(1,1)} = 1] after [{(0,2),(1,0),(1,1),(1,2)} = 1].  The subset
    loop meets the pair (wide, narrow) first and returns at once, so the
    pair (narrow, wide) is never looked at: a full propagation cycle leaves
    the state as it is, without the sentence [{(0,2),(1,2)} = 0] and
    without [(0, 2)] or [(1, 2)] among the safe cells. *)
Theorem subset_pass_returns_at_first_mismatch :
  reachable corner_board corner_state2 ∧
  AI.knowledge corner_state2 = [corner_wide; corner_narrow] ∧
  Sentence.cells corner_narrow ⊆ Sentence.cells corner_wide ∧
  AI.subset_body corner_narrow corner_wide =
    AI.Append (Sentence.Build {[(0, 2); (1, 2)]} 0) ∧
  AI.subset_body corner_wide corner_narrow = AI.Return ∧
  AI.propagate 2 corner_state2 = Some corner_state2 ∧
  (Sentence.Build {[(0, 2); (1, 2)]} 0 ∉ AI.knowledge corner_state2) ∧
  ((0, 2) ∉ AI.safes corner_state2) ∧ ((1, 2) ∉ AI.safes corner_state2).
Proof.
  split_and!.
  - apply corner_state2_reachable.
  - reflexivity.
  - by_compute.
  - vm_compute. reflexivity.
  - vm_compute. reflexivity.
  - vm_compute. reflexivity.
  - by_compute.
  - by_compute.
  - by_compute.
Qed.

(** ** Two sentences, one inside the other *)

(** C3: with [{(0,0),(0,1)} = 1] stored before [{(0,0)} = 1] and nothing
    else known, the direct pass visits the pair while [(0, 0)] is still
    unknown, then resolves the single cell, which turns the pair into
    [{(0,1)} = 0]; the pair is not visited again and the subset pass
    changes nothing, so the engine is left holding [{(0,1)} = 0] with
    [(0, 1)] not marked safe.  One more direct pass marks it.  The same
    holds of a whole call of [add_knowledge] that observes a cell far from
    the two sentences.  With the two sentences stored the other way round
    [(0, 1)] is marked safe. *)
Theorem scenario3_pair_first_cell_not_marked :
  (∃ a', AI.propagate 7 (scenario3_state [scenario3_pair; scenario3_single]) = Some a' ∧
     a' = AI.resolve_pass (scenario3_state [scenario3_pair; scenario3_single]) ∧
     (0, 0) ∈ AI.mines a' ∧
     Sentence.Build {[(0, 1)]} 0 ∈ AI.knowledge a' ∧
     ((0, 1) ∉ AI.safes a') ∧
     (0, 1) ∈ AI.safes (AI.resolve_pass a')) ∧
  (∃ a', AI.add_knowledge 13 (5, 5) 0
           (scenario3_state [scenario3_pair; scenario3_single]) = Some a' ∧
     Sentence.Build {[(0, 1)]} 0 ∈ AI.knowledge a' ∧
     ((0, 1) ∉ AI.safes a')) ∧
  (∃ b', AI.propagate 7 (scenario3_state [scenario3_single; scenario3_pair]) = Some b' ∧
     (0, 1) ∈ AI.safes b').
Proof.
  split_and!.
  - exists (AI.Build 8 8 ∅ {[(0, 0)]} ∅
              [Sentence.Build {[(0, 1)]} 0; Sentence.Build ∅ 0]).
    split_and!.
    + vm_compute. reflexivity.
    + vm_compute. reflexivity.
    + by_compute.
    + apply list_elem_of_here.
    + by_compute.
    + by_compute.
  - exists (AI.Build 8 8 {[(5, 5)]} {[(0, 0)]}
              {[(4, 4); (4, 5); (4, 6); (5, 4); (5, 5); (5, 6); (6, 4); (6, 5); (6, 6)]}
              [Sentence.Build {[(0, 1)]} 0; Sentence.Build ∅ 0; Sentence.Build ∅ 0]).
    split_and!.
    + vm_compute. reflexivity.
    + apply list_elem_of_here.
    + by_compute.
  - exists (AI.Build 8 8 ∅ {[(0, 0)]} {[(0, 1)]}
              [Sentence.Build ∅ 0; Sentence.Build ∅ 0]).
    split; [vm_compute; reflexivity|by_compute].
Qed.

(** * Further properties of the code *)

(** ** The sentence built from an observation *)

Lemma neighbour_fold_spec a c l : ∀ acc,
  foldl (AI.neighbour_step a c) acc l =
  (acc.1 ∪ list_to_set
     (filter (λ ij, ij ≠ c ∧ in_bounds (AI.height a) (AI.width a) ij ∧
                    (ij ∉ AI.mines a) ∧ (ij ∉ AI.safes a)) l),
   acc.2 - Z.of_nat (length (filter (λ ij, ij ≠ c ∧ ij ∈ AI.mines a) l))).
Proof.
  induction l as [|ij l IH]; intros [X m]; simpl.
  { f_equal; [set_solver|lia]. }
  rewrite IH. unfold AI.neighbour_step. simpl. rewrite !filter_cons.
  destruct (decide (ij = c)) as [->|Hne].
  { rewrite !decide_False by tauto. done. }
  destruct (decide (ij ∈ AI.mines a)) as [Hm|Hm].
  - rewrite (decide_True (P := ij ≠ c ∧ ij ∈ AI.mines a)) by done.
    rewrite (decide_False (P := ij ≠ c ∧ in_bounds _ _ ij ∧ _)) by tauto.
    simpl. destruct (decide (in_bounds _ _ ij)).
    + rewrite decide_False by tauto. f_equal. lia.
    + f_equal. lia.
  - rewrite (decide_False (P := ij ≠ c ∧ ij ∈ AI.mines a)) by tauto.
    destruct (decide (in_bounds _ _ ij)) as [Hb|Hb].
    + destruct (decide ((ij ∉ AI.mines a) ∧ (ij ∉ AI.safes a))) as [Hk|Hk].
      * rewrite decide_True by tauto. simpl. f_equal. set_solver.
      * rewrite decide_False by tauto. done.
    + rewrite decide_False by tauto. done.
Qed.

(** X1: the sentence [add_knowledge] builds holds exactly the neighbours of
    the cell that lie on the grid and are neither known mines nor known
    safe cells, and its count is the count given minus one for every
    neighbour in the known mines. *)
Theorem new_sentence_spec (a : AI.t) (c : cell) (n : Z) :
  (∀ ij, ij ∈ Sentence.cells (AI.new_sentence a c n) ↔
         ij ∈ around c ∧ ij ≠ c ∧ in_bounds (AI.height a) (AI.width a) ij ∧
         (ij ∉ AI.mines a) ∧ (ij ∉ AI.safes a)) ∧
  Sentence.count (AI.new_sentence a c n) =
    n - count_around (λ ij, ij ∈ AI.mines a) c.
Proof.
  unfold AI.new_sentence, count_around. rewrite neighbour_fold_spec. simpl.
  split; [|done]. intros ij.
  rewrite elem_of_union, elem_of_list_to_set, list_elem_of_filter.
  split; [intros [H|H]; [set_solver|tauto]|tauto].
Qed.

(** ** Marking a set of cells *)

Lemma strike_mines_mark c L s :
  c ∉ L →
  strike_mines L (Sentence.mark_mine c s) = strike_mines ({[c]} ∪ L) s.
Proof.
  intros Hc. unfold strike_mines, Sentence.mark_mine.
  destruct (decide (c ∈ Sentence.cells s)) as [Hin|Hin]; simpl.
  - f_equal; [set_solver|].
    assert (Sentence.cells s ∩ ({[c]} ∪ L) =
            {[c]} ∪ (Sentence.cells s ∖ {[c]}) ∩ L) as -> by set_solver.
    assert (size ({[c]} ∪ (Sentence.cells s ∖ {[c]}) ∩ L) =
            S (size ((Sentence.cells s ∖ {[c]}) ∩ L))) as ->; [|lia].
    rewrite size_union, size_singleton; [done|set_solver].
  - f_equal; [set_solver|]. do 3 f_equal. set_solver.
Qed.

Lemma strike_safes_mark c L s :
  strike_safes L (Sentence.mark_safe c s) = strike_safes ({[c]} ∪ L) s.
Proof.
  unfold strike_safes, Sentence.mark_safe.
  destruct (decide (c ∈ Sentence.cells s)); simpl; f_equal; set_solver.
Qed.

Lemma mark_mines_fold l : NoDup l → ∀ a,
  foldl (λ a c, AI.mark_mine c a) a l =
  AI.Build (AI.height a) (AI.width a) (AI.moves_made a)
    (list_to_set l ∪ AI.mines a) (AI.safes a)
    (strike_mines (list_to_set l) <$> AI.knowledge a).
Proof.
  induction 1 as [|c l Hc _ IH]; intros a; simpl.
  - destruct a as [h w mv mi sa kb]. simpl. f_equal; [set_solver|].
    rewrite <- (list_fmap_id kb) at 1. apply list_fmap_ext. intros _ [X m] _.
    unfold strike_mines. simpl. f_equal; [set_solver|].
    assert (X ∩ ∅ = (∅ : gset cell)) as -> by set_solver.
    rewrite size_empty. lia.
  - rewrite IH. simpl. f_equal; [set_solver|].
    rewrite <- list_fmap_compose. apply list_fmap_ext. intros _ s _. simpl.
    apply strike_mines_mark. by rewrite elem_of_list_to_set.
Qed.

Lemma mark_safes_fold l : ∀ a,
  foldl (λ a c, AI.mark_safe c a) a l =
  AI.Build (AI.height a) (AI.width a) (AI.moves_made a)
    (AI.mines a) (list_to_set l ∪ AI.safes a)
    (strike_safes (list_to_set l) <$> AI.knowledge a).
Proof.
  induction l as [|c l IH]; intros a; simpl.
  - destruct a as [h w mv mi sa kb]. simpl. f_equal; [set_solver|].
    rewrite <- (list_fmap_id kb) at 1. apply list_fmap_ext. intros _ [X m] _.
    unfold strike_safes. simpl. f_equal. set_solver.
  - rewrite IH. simpl. f_equal; [set_solver|].
    rewrite <- list_fmap_compose. apply list_fmap_ext. intros _ s _. simpl.
    apply strike_safes_mark.
Qed.

Lemma mark_mines_eq X a :
  AI.mark_mines X a =
  AI.Build (AI.height a) (AI.width a) (AI.moves_made a)
    (X ∪ AI.mines a) (AI.safes a) (strike_mines X <$> AI.knowledge a).
Proof.
  unfold AI.mark_mines. rewrite mark_mines_fold by apply NoDup_elements.
  by rewrite list_to_set_elements_L.
Qed.

Lemma mark_safes_eq X a :
  AI.mark_safes X a =
  AI.Build (AI.height a) (AI.width a) (AI.moves_made a)
    (AI.mines a) (X ∪ AI.safes a) (strike_safes X <$> AI.knowledge a).
Proof.
  unfold AI.mark_safes. rewrite mark_safes_fold.
  by rewrite list_to_set_elements_L.
Qed.

(** X2: marking all the cells of a set as mines, one call of [mark_mine]
    per cell, adds the set to the known mines and takes it out of every
    sentence, whose count drops by the number of its cells in the set;
    marking them safe adds the set to the safe cells and takes it out of
    every sentence, the counts staying as they are. *)
Theorem mark_all_spec (X : gset cell) (a : AI.t) :
  AI.mark_mines X a =
    AI.Build (AI.height a) (AI.width a) (AI.moves_made a)
      (X ∪ AI.mines a) (AI.safes a) (strike_mines X <$> AI.knowledge a) ∧
  AI.mark_safes X a =
    AI.Build (AI.height a) (AI.width a) (AI.moves_made a)
      (AI.mines a) (X ∪ AI.safes a) (strike_safes X <$> AI.knowledge a).
Proof. split; [apply mark_mines_eq|apply mark_safes_eq]. Qed.

(** X3: the order in which the cells of a set are marked does not matter:
    two enumerations of the same cells give the same engine. *)
Theorem marking_order_irrelevant (l1 l2 : list cell) (a : AI.t) :
  l1 ≡ₚ l2 →
  foldl (λ a c, AI.mark_mine c a) a l1 = foldl (λ a c, AI.mark_mine c a) a l2 ∧
  foldl (λ a c, AI.mark_safe c a) a l1 = foldl (λ a c, AI.mark_safe c a) a l2.
Proof.
  intros Hl. split; apply foldl_commute_permutation; try done.
  - intros ???. apply AI_mark_mine_comm.
  - intros ???. apply AI_mark_safe_comm.
Qed.

Lemma marking_order_irrelevant_witness :
  foldl (λ a c, AI.mark_mine c a) line_state1 [(0, 0); (0, 2)] =
  foldl (λ a c, AI.mark_mine c a) line_state1 [(0, 2); (0, 0)].
Proof.
  apply (proj1 (marking_order_irrelevant [(0, 0); (0, 2)] [(0, 2); (0, 0)]
                  line_state1 (Permutation_swap (0, 2) (0, 0) []))).
Defined.

(** ** What a call of add_knowledge keeps *)

Lemma Sentence_count_mark_mine c s :
  Sentence.count (Sentence.mark_mine c s) ≤ Sentence.count s.
Proof. unfold Sentence.mark_mine. destruct (decide _); simpl; lia. Qed.

Lemma Sentence_count_mark_safe c s :
  Sentence.count (Sentence.mark_safe c s) = Sentence.count s.
Proof. unfold Sentence.mark_safe. by destruct (decide _). Qed.

Lemma subset_loop_prefix fuel : ∀ i j kb kb',
  AI.subset_loop fuel i j kb = Some kb' → kb `prefix_of` kb'.
Proof.
  induction fuel as [|fuel IH]; intros i j kb kb'; simpl; [done|].
  destruct (kb !! i); [|by intros [= <-]].
  destruct (kb !! j); [|apply IH].
  destruct (AI.subset_body _ _) as [|s|].
  - apply IH.
  - intros H. apply IH in H. etrans; [|exact H]. by apply prefix_app_r.
  - by intros [= <-].
Qed.

(** The direct pass keeps the grid and the moves, lets the known cells grow
    and leaves every sentence in its place, with fewer cells or the same. *)
Lemma resolve_pass_extends a0 :
  AI.height (AI.resolve_pass a0) = AI.height a0 ∧
  AI.width (AI.resolve_pass a0) = AI.width a0 ∧
  AI.moves_made (AI.resolve_pass a0) = AI.moves_made a0 ∧
  AI.mines a0 ⊆ AI.mines (AI.resolve_pass a0) ∧
  AI.safes a0 ⊆ AI.safes (AI.resolve_pass a0) ∧
  ∀ k, option_Forall2 (λ s s', Sentence.cells s' ⊆ Sentence.cells s ∧
                               Sentence.count s' ≤ Sentence.count s)
         (AI.knowledge a0 !! k) (AI.knowledge (AI.resolve_pass a0) !! k).
Proof.
  apply (resolve_pass_preserves
    (λ a, AI.height a = AI.height a0 ∧ AI.width a = AI.width a0 ∧
          AI.moves_made a = AI.moves_made a0 ∧
          AI.mines a0 ⊆ AI.mines a ∧ AI.safes a0 ⊆ AI.safes a ∧
          ∀ k, option_Forall2 (λ s s', Sentence.cells s' ⊆ Sentence.cells s ∧
                                       Sentence.count s' ≤ Sentence.count s)
                 (AI.knowledge a0 !! k) (AI.knowledge a !! k))
    (λ _, True) (λ _, True)); try done.
  - intros a c (Hh & Hw & Hmv & Hmi & Hsa & Hk) _. simpl.
    split_and!; try done; [set_solver|].
    intros k. specialize (Hk k). rewrite list_lookup_fmap.
    destruct Hk as [s s' [Hc Hn]|]; simpl; constructor.
    rewrite Sentence_cells_mark_mine.
    pose proof (Sentence_count_mark_mine c s'). split; [set_solver|lia].
  - intros a c (Hh & Hw & Hmv & Hmi & Hsa & Hk) _. simpl.
    split_and!; try done; [set_solver|].
    intros k. specialize (Hk k). rewrite list_lookup_fmap.
    destruct Hk as [s s' [Hc Hn]|]; simpl; constructor.
    rewrite Sentence_cells_mark_safe, Sentence_count_mark_safe.
    split; [set_solver|lia].
  - split_and!; try done. intros k.
    destruct (AI.knowledge a0 !! k); constructor. split; [done|lia].
Qed.

Lemma subset_pass_frame fuel a a' :
  AI.subset_pass fuel a = Some a' →
  AI.height a' = AI.height a ∧ AI.width a' = AI.width a ∧
  AI.moves_made a' = AI.moves_made a ∧
  AI.mines a' = AI.mines a ∧ AI.safes a' = AI.safes a ∧
  AI.knowledge a `prefix_of` AI.knowledge a'.
Proof.
  unfold AI.subset_pass. intros H.
  destruct (AI.subset_loop fuel 0 0 (AI.knowledge a)) as [kb|] eqn:Hl; [|done].
  simpl in H. injection H as <-. simpl. split_and!; try done.
  by eapply subset_loop_prefix.
Qed.

Lemma add_knowledge_extends fuel c n a a' :
  AI.add_knowledge fuel c n a = Some a' →
  (AI.height a' = AI.height a ∧ AI.width a' = AI.width a ∧
   AI.moves_made a' = {[c]} ∪ AI.moves_made a ∧
   AI.mines a ⊆ AI.mines a' ∧ {[c]} ∪ AI.safes a ⊆ AI.safes a' ∧
   (length (AI.knowledge a) < length (AI.knowledge a'))%nat) ∧
  ∀ k s, AI.knowledge a !! k = Some s →
    ∃ s', AI.knowledge a' !! k = Some s' ∧
          Sentence.cells s' ⊆ Sentence.cells s ∧
          Sentence.count s' ≤ Sentence.count s.
Proof.
  unfold AI.add_knowledge, AI.propagate. intros H.
  apply subset_pass_frame in H as (Hh & Hw & Hmv & Hmi & Hsa & Hpre).
  set (a0 := AI.record_move c n a) in *.
  destruct (resolve_pass_extends a0) as (Hh1 & Hw1 & Hmv1 & Hmi1 & Hsa1 & Hk1).
  assert (∀ k s, AI.knowledge a !! k = Some s →
    ∃ s', AI.knowledge a' !! k = Some s' ∧
          Sentence.cells s' ⊆ Sentence.cells s ∧
          Sentence.count s' ≤ Sentence.count s) as Hkeep.
  { intros k s Hs. specialize (Hk1 k).
    assert (AI.knowledge a0 !! k = Some (Sentence.mark_safe c s)) as H0.
    { unfold a0, AI.record_move, AI.append. simpl.
      apply lookup_app_l_Some. by rewrite list_lookup_fmap, Hs. }
    rewrite H0 in Hk1. inversion Hk1 as [s0 s' [Hc Hn] E1 E2|]; subst.
    exists s'. split; [by eapply prefix_lookup_Some|].
    rewrite Sentence_cells_mark_safe in Hc.
    rewrite Sentence_count_mark_safe in Hn. split; [set_solver|lia]. }
  split; [|exact Hkeep].
  rewrite Hh, Hw, Hmv, Hmi, Hsa, Hh1, Hw1, Hmv1.
  split_and!; try done.
  apply prefix_length in Hpre.
  assert (length (AI.knowledge a0) = S (length (AI.knowledge a))) as E0.
  { unfold a0, AI.record_move, AI.append. simpl.
    rewrite length_app, length_fmap. simpl. lia. }
  assert (length (AI.knowledge (AI.resolve_pass a0)) = length (AI.knowledge a0)) as E1.
  { apply Nat.le_antisymm; apply Nat.le_ngt; intros Hlt.
    - specialize (Hk1 (length (AI.knowledge a0))).
      destruct (lookup_lt_is_Some_2 _ _ Hlt) as [x Hx].
      rewrite Hx, (lookup_ge_None_2 (AI.knowledge a0)) in Hk1 by lia.
      inversion Hk1.
    - specialize (Hk1 (length (AI.knowledge (AI.resolve_pass a0)))).
      destruct (lookup_lt_is_Some_2 _ _ Hlt) as [x Hx].
      rewrite Hx, (lookup_ge_None_2 (AI.knowledge (AI.resolve_pass a0))) in Hk1 by lia.
      inversion Hk1. }
  lia.
Qed.

(** X4: a call of [add_knowledge] that returns leaves the size of the grid
    as it was, adds exactly the cell to the moves made, keeps every known
    mine and every known safe cell, has the cell among the safe cells, and
    leaves the knowledge list longer than it found it. *)
Theorem add_knowledge_grows (fuel : nat) (c : cell) (n : Z) (a a' : AI.t) :
  AI.add_knowledge fuel c n a = Some a' →
  AI.height a' = AI.height a ∧ AI.width a' = AI.width a ∧
  AI.moves_made a' = {[c]} ∪ AI.moves_made a ∧
  AI.mines a ⊆ AI.mines a' ∧ {[c]} ∪ AI.safes a ⊆ AI.safes a' ∧
  (length (AI.knowledge a) < length (AI.knowledge a'))%nat.
Proof. intros H. by apply add_knowledge_extends in H as [? _]. Qed.

Lemma add_knowledge_grows_witness :
  AI.height line_state2 = AI.height line_state1 ∧
  AI.width line_state2 = AI.width line_state1 ∧
  AI.moves_made line_state2 = {[(0, 3)]} ∪ AI.moves_made line_state1 ∧
  AI.mines line_state1 ⊆ AI.mines line_state2 ∧
  {[(0, 3)]} ∪ AI.safes line_state1 ⊆ AI.safes line_state2 ∧
  (length (AI.knowledge line_state1) < length (AI.knowledge line_state2))%nat.
Proof.
  apply (add_knowledge_grows 7 (0, 3) 1 line_state1 line_state2).
  vm_compute. reflexivity.
Defined.

(** X5: [add_knowledge] deletes no sentence: every sentence the engine held
    is at the same index afterwards, with a subset of its cells and a count
    that is not larger. *)
Theorem add_knowledge_keeps_sentences
    (fuel : nat) (c : cell) (n : Z) (a a' : AI.t) (k : nat) (s : Sentence.t) :
  AI.add_knowledge fuel c n a = Some a' →
  AI.knowledge a !! k = Some s →
  ∃ s', AI.knowledge a' !! k = Some s' ∧
        Sentence.cells s' ⊆ Sentence.cells s ∧
        Sentence.count s' ≤ Sentence.count s.
Proof. intros H. apply add_knowledge_extends in H as [_ H]. apply H. Qed.

Lemma add_knowledge_keeps_sentences_witness :
  ∃ s', AI.knowledge line_state2 !! 0%nat = Some s' ∧
        Sentence.cells s' ⊆ Sentence.cells (Sentence.Build {[(0, 0); (0, 2)]} 1) ∧
        Sentence.count s' ≤ Sentence.count (Sentence.Build {[(0, 0); (0, 2)]} 1).
Proof.
  apply (add_knowledge_keeps_sentences 7 (0, 3) 1 line_state1 line_state2 0).
  - vm_compute. reflexivity.
  - reflexivity.
Defined.

(** X6: after [add_knowledge] returns, the cell observed is in no sentence
    of the knowledge base, whatever the engine knew before. *)
Theorem observed_cell_in_no_sentence
    (fuel : nat) (c : cell) (n : Z) (a a' : AI.t) (s : Sentence.t) :
  AI.add_knowledge fuel c n a = Some a' →
  s ∈ AI.knowledge a' → c ∉ Sentence.cells s.
Proof.
  unfold AI.add_knowledge, AI.propagate, AI.subset_pass. intros H Hs.
  destruct (AI.subset_loop _ _ _ _) as [kb|] eqn:Hl; [|done].
  simpl in H. injection H as <-. simpl in Hs.
  revert s Hs. apply Forall_forall.
  eapply (subset_loop_Forall (λ s, c ∉ Sentence.cells s)); [| |exact Hl].
  { intros s1 s2 s H1 H2 Hb.
    apply subset_body_Append in Hb as (_ & _ & _ & _ & ->). simpl. set_solver. }
  apply (resolve_pass_preserves
    (λ a, Forall (λ s, c ∉ Sentence.cells s) (AI.knowledge a))
    (λ _, True) (λ _, True)); try done.
  - intros x c' Hx _. simpl. rewrite Forall_fmap.
    eapply Forall_impl; [exact Hx|]. intros s. simpl.
    rewrite Sentence_cells_mark_mine. set_solver.
  - intros x c' Hx _. simpl. rewrite Forall_fmap.
    eapply Forall_impl; [exact Hx|]. intros s. simpl.
    rewrite Sentence_cells_mark_safe. set_solver.
  - unfold AI.record_move, AI.append. simpl. apply Forall_app. split.
    + rewrite Forall_fmap. apply Forall_forall. intros s _. simpl.
      rewrite Sentence_cells_mark_safe. set_solver.
    + apply Forall_singleton. intros Hin.
      apply new_sentence_cells in Hin. tauto.
Qed.

Lemma observed_cell_in_no_sentence_witness :
  (0, 3) ∉ Sentence.cells (Sentence.Build {[(0, 0)]} 0).
Proof.
  apply (observed_cell_in_no_sentence 7 (0, 3) 1 line_state1 line_state2).
  - vm_compute. reflexivity.
  - apply list_elem_of_here.
Defined.

(** ** The safe move *)

Lemma safe_move_loop_spec a l :
  (∀ c, AI.safe_move_loop a l = Some c → c ∈ l ∧ c ∉ AI.moves_made a) ∧
  (AI.safe_move_loop a l = None ↔ ∀ c, c ∈ l → c ∈ AI.moves_made a).
Proof.
  induction l as [|x l [IH1 IH2]]; simpl.
  { split; [done|]. split; [|done]. intros _ c Hc. by apply elem_of_nil in Hc. }
  destruct (decide (x ∉ AI.moves_made a)) as [Hx|Hx].
  - split.
    + intros c [= <-]. split; [left|done].
    + split; [done|]. intros H. exfalso. apply Hx, H. left.
  - split.
    + intros c Hc. apply IH1 in Hc as [??]. split; [by right|done].
    + rewrite IH2. split.
      * intros H c Hc. apply elem_of_cons in Hc as [->|Hc]; [|by apply H].
        by destruct (decide (x ∈ AI.moves_made a)).
      * intros H c Hc. apply H. by right.
Qed.

(** X7: in whatever order the known safe cells are visited,
    [make_safe_move] returns a known safe cell that is not a move made
    when there is one, returns [None] exactly when every known safe cell is
    a move made, and leaves the engine as it was. *)
Theorem make_safe_move_spec (order : list cell) (a : AI.t) :
  (∀ c, c ∈ order ↔ c ∈ AI.safes a) →
  (∀ c, (AI.make_safe_move order a).1 = Some c →
        c ∈ AI.safes a ∧ c ∉ AI.moves_made a) ∧
  ((AI.make_safe_move order a).1 = None ↔ AI.safes a ⊆ AI.moves_made a) ∧
  (AI.make_safe_move order a).2 = a.
Proof.
  intros Ho. unfold AI.make_safe_move. simpl.
  destruct (safe_move_loop_spec a order) as [H1 H2].
  split_and!; [|rewrite H2|done].
  - intros c Hc. apply H1 in Hc as [Hc ?]. by apply Ho in Hc.
  - split.
    + intros H c Hc. apply H. by apply Ho.
    + intros H c Hc. apply H. by apply Ho in Hc.
Qed.

Lemma clear_order_enumerates c : c ∈ clear_order ↔ c ∈ AI.safes clear_state.
Proof. unfold clear_order, clear_state. simpl. set_solver. Qed.

Lemma line_order_enumerates c : c ∈ line_order ↔ c ∈ AI.safes line_state2.
Proof. unfold line_order, line_state2. simpl. set_solver. Qed.

Lemma make_safe_move_spec_witness :
  (0, 1) ∈ AI.safes clear_state ∧ (0, 1) ∉ AI.moves_made clear_state.
Proof.
  apply (proj1 (make_safe_move_spec clear_order clear_state clear_order_enumerates)).
  reflexivity.
Defined.

(** ** The size of the subset pass *)

Lemma subset_loop_length a N fuel : ∀ i j kb pre ext kb',
  loop_inv a N i j kb pre ext →
  AI.subset_loop fuel i j kb = Some kb' → (length kb' ≤ N)%nat.
Proof.
  induction fuel as [|fuel IH]; intros i j kb pre ext kb' Hinv; simpl; [done|].
  destruct (kb !! i) as [x|] eqn:Hi.
  - pose proof (loop_inv_outer_lookup _ _ _ _ _ _ _ _ Hinv Hi) as Hx.
    pose proof (loop_inv_length _ _ _ _ _ _ _ _ Hinv Hx) as Hlen.
    destruct (kb !! j) as [y|] eqn:Hj.
    + destruct (AI.subset_body x y) as [|z|] eqn:Hbody.
      * eapply IH. by eapply loop_inv_continue.
      * eapply IH. by eapply loop_inv_append.
      * by intros [= <-].
    + eapply IH. by eapply loop_inv_next.
  - intros [= <-]. destruct Hinv as [-> Hout _ _ Hbud Hb _ _].
    destruct ext as [|z ext].
    + rewrite app_nil_r. lia.
    + apply Forall_cons in Hb as [[_ (x & Hx & _)] _].
      rewrite (lookup_app_l_Some _ _ _ _ Hx) in Hi. done.
Qed.

(** X8: the subset pass changes neither the moves nor the known cells; it
    only appends to the knowledge list, and at most the square of the
    number of sentences with a nonzero count and a nonempty cell set. *)
Theorem subset_pass_appends_bounded (fuel : nat) (a a' : AI.t) :
  AI.subset_pass fuel a = Some a' →
  AI.moves_made a' = AI.moves_made a ∧
  AI.mines a' = AI.mines a ∧ AI.safes a' = AI.safes a ∧
  AI.knowledge a `prefix_of` AI.knowledge a' ∧
  (length (AI.knowledge a') ≤
   length (AI.knowledge a) + nact (AI.knowledge a) * nact (AI.knowledge a))%nat.
Proof.
  intros H. pose proof (subset_pass_frame _ _ _ H) as (_ & _ & ? & ? & ? & ?).
  split_and!; try done.
  unfold AI.subset_pass in H.
  destruct (AI.subset_loop fuel 0 0 (AI.knowledge a)) as [kb|] eqn:Hl; [|done].
  simpl in H. injection H as <-. simpl.
  eapply (subset_loop_length (nact (AI.knowledge a))); [|exact Hl].
  split.
  - by rewrite app_nil_r.
  - lia.
  - lia.
  - done.
  - rewrite drop_0. lia.
  - constructor.
  - rewrite take_nil. constructor.
  - apply Nat.le_0_l.
Qed.

Lemma subset_pass_appends_bounded_witness :
  AI.knowledge (AI.Build 2 3 ∅ ∅ ∅ [corner_narrow; corner_wide])
    `prefix_of` [corner_narrow; corner_wide; Sentence.Build {[(0, 2); (1, 2)]} 0] ∧
  (3 ≤ 2 + nact [corner_narrow; corner_wide] * nact [corner_narrow; corner_wide])%nat.
Proof.
  destruct (subset_pass_appends_bounded 5
              (AI.Build 2 3 ∅ ∅ ∅ [corner_narrow; corner_wide])
              (AI.Build 2 3 ∅ ∅ ∅
                 [corner_narrow; corner_wide; Sentence.Build {[(0, 2); (1, 2)]} 0]))
    as (_ & _ & _ & Hp & Hl).
  - vm_compute. reflexivity.
  - split; [exact Hp|exact Hl].
Defined.

(** ** Counting the mines around a cell *)

Lemma nearby_fold_counts g c l : ∀ k n,
  foldl (Minesweeper.nearby_step g c) (Some k) l = Some n →
  n = k + Z.of_nat (length (filter (λ ij, ij ≠ c ∧ true_mine g ij) l)).
Proof.
  induction l as [|ij l IH]; intros k n; cbn [foldl].
  { intros [= <-]. simpl. lia. }
  destruct (Minesweeper.nearby_step g c (Some k) ij) as [k1|] eqn:Hk1;
    [|by rewrite nearby_fold_None].
  apply nearby_step_Some in Hk1. intros Hn. apply IH in Hn.
  rewrite filter_cons. destruct (decide (ij ≠ c ∧ true_mine g ij)); simpl; lia.
Qed.

Lemma around_length c : length (around c) = 9%nat.
Proof.
  unfold around, py_range.
  replace (c.1 + 2 - (c.1 - 1)) with 3 by lia.
  replace (c.2 + 2 - (c.2 - 1)) with 3 by lia. reflexivity.
Qed.

Lemma filter_length_lt {A} (P : A → Prop) `{!∀ x, Decision (P x)} l x :
  x ∈ l → ¬ P x → (length (filter P l) < length l)%nat.
Proof.
  intros Hx HP. induction Hx as [x l|x y l _ IH].
  - rewrite filter_cons, decide_False by done. simpl.
    pose proof (length_filter P l). lia.
  - specialize (IH HP). rewrite filter_cons.
    destruct (decide (P y)); simpl; lia.
Qed.

Lemma count_around_bounds (P : cell → Prop) `{!∀ ij, Decision (P ij)} c :
  0 ≤ count_around P c ≤ 8.
Proof.
  unfold count_around.
  assert (length (filter (λ ij, ij ≠ c ∧ P ij) (around c)) < length (around c))%nat.
  { apply (filter_length_lt _ _ c); [|tauto]. apply elem_of_around. lia. }
  rewrite around_length in *. lia.
Qed.

(** X10: when [nearby_mines] returns, it returns the number of cells around
    the cell, the cell itself left out, that lie on the grid and hold a
    mine; the number is between 0 and 8. *)
Theorem nearby_mines_counts (g : Minesweeper.t) (c : cell) (n : Z) :
  Minesweeper.nearby_mines g c = Some n →
  n = count_around (true_mine g) c ∧ 0 ≤ n ≤ 8.
Proof.
  unfold Minesweeper.nearby_mines. intros H. apply nearby_fold_counts in H.
  assert (n = count_around (true_mine g) c) as -> by (unfold count_around; lia).
  split; [done|]. apply count_around_bounds.
Qed.

Lemma nearby_mines_counts_witness :
  1 = count_around (true_mine line_board) (0, 1) ∧ 0 ≤ 1 ≤ 8.
Proof.
  apply (nearby_mines_counts line_board (0, 1) 1). vm_compute. reflexivity.
Defined.

Lemma is_mine_on_board g ij :
  board_wf g →
  in_bounds (Minesweeper.height g) (Minesweeper.width g) ij →
  is_Some (Minesweeper.is_mine g ij).
Proof.
  intros [Hrows Hcols] [[??] [??]]. unfold Minesweeper.is_mine, py_index.
  rewrite decide_True by done.
  destruct (lookup_lt_is_Some_2 (Minesweeper.board g) (Z.to_nat ij.1)) as [row Hrow];
    [lia|].
  rewrite Hrow. simpl. rewrite decide_True by done.
  apply lookup_lt_is_Some_2.
  rewrite Forall_forall in Hcols.
  rewrite (Hcols row) by by eapply list_elem_of_lookup_2. lia.
Qed.

(** X11: on a board of [height] rows of [width] cells, [nearby_mines]
    returns a number for every cell, on the grid or off it: it reads the
    board only where the bounds test has passed. *)
Theorem nearby_mines_defined (g : Minesweeper.t) (c : cell) :
  board_wf g → is_Some (Minesweeper.nearby_mines g c).
Proof.
  intros Hwf. unfold Minesweeper.nearby_mines.
  generalize 0. induction (around c) as [|ij l IH]; intros k; cbn [foldl].
  { by eexists. }
  assert (is_Some (Minesweeper.nearby_step g c (Some k) ij)) as [k1 ->]; [|apply IH].
  unfold Minesweeper.nearby_step. simpl.
  destruct (decide (ij = c)); [by eexists|].
  destruct (decide (in_bounds _ _ ij)) as [Hb|]; [|by eexists].
  destruct (is_mine_on_board g ij Hwf Hb) as [b ->]. simpl. by eexists.
Qed.

Lemma nearby_mines_defined_witness :
  is_Some (Minesweeper.nearby_mines line_board (-5, 9)).
Proof.
  apply (nearby_mines_defined line_board (-5, 9)).
  split; [reflexivity|]. repeat constructor.
Defined.

(** ** What the engine knows is true of the board *)

Lemma on_grid_resolve_pass a : on_grid a → on_grid (AI.resolve_pass a).
Proof.
  intros Ha.
  cut (AI.height (AI.resolve_pass a) = AI.height a ∧
       AI.width (AI.resolve_pass a) = AI.width a ∧ on_grid (AI.resolve_pass a));
    [tauto|].
  apply (resolve_pass_preserves
    (λ x, AI.height x = AI.height a ∧ AI.width x = AI.width a ∧ on_grid x)
    (in_bounds (AI.height a) (AI.width a))
    (in_bounds (AI.height a) (AI.width a))); [| | | |done].
  - intros x c (Hh & Hw & Hc & Hk) Hb. split_and!; [done|done|].
    split; simpl.
    + intros y Hy. rewrite Hh, Hw.
      destruct (decide (y = c)) as [->|]; [done|].
      rewrite <- Hh, <- Hw. apply Hc. set_solver.
    + rewrite Forall_fmap. eapply Forall_impl; [exact Hk|].
      intros s Hs y. simpl. rewrite Sentence_cells_mark_mine. set_solver.
  - intros x c (Hh & Hw & Hc & Hk) Hb. split_and!; [done|done|].
    split; simpl.
    + intros y Hy. rewrite Hh, Hw.
      destruct (decide (y = c)) as [->|]; [done|].
      rewrite <- Hh, <- Hw. apply Hc. set_solver.
    + rewrite Forall_fmap. eapply Forall_impl; [exact Hk|].
      intros s Hs y. simpl. rewrite Sentence_cells_mark_safe. set_solver.
  - intros x s c (Hh & Hw & _ & Hk) Hs Hc.
    apply Sentence_known_mines_elem in Hc as [_ Hc].
    rewrite Forall_forall in Hk. rewrite <- Hh, <- Hw. by eapply Hk.
  - intros x s c (Hh & Hw & _ & Hk) Hs Hc.
    apply Sentence_known_safes_elem in Hc as [_ Hc].
    rewrite Forall_forall in Hk. rewrite <- Hh, <- Hw. by eapply Hk.
Qed.

Lemma on_grid_add_knowledge fuel c n a a' :
  on_grid a → in_bounds (AI.height a) (AI.width a) c →
  AI.add_knowledge fuel c n a = Some a' → on_grid a'.
Proof.
  unfold AI.add_knowledge, AI.propagate, AI.subset_pass. intros [Hc Hk] Hb H.
  destruct (AI.subset_loop _ _ _ _) as [kb|] eqn:Hl; [|done].
  simpl in H. injection H as <-.
  assert (on_grid (AI.record_move c n a)) as H0.
  { unfold AI.record_move, AI.append. split; simpl.
    - intros y Hy. destruct (decide (y = c)) as [->|]; [done|].
      apply Hc. set_solver.
    - apply Forall_app. split.
      + rewrite Forall_fmap. eapply Forall_impl; [exact Hk|].
        intros s Hs y. simpl. rewrite Sentence_cells_mark_safe. set_solver.
      + apply Forall_singleton. intros y Hy.
        apply new_sentence_cells in Hy. simpl in Hy. tauto. }
  apply on_grid_resolve_pass in H0 as [Hc1 Hk1]. split; simpl; [done|].
  eapply subset_loop_Forall; [|exact Hk1|exact Hl].
  intros s1 s2 s H1 H2 Hb' y.
  apply subset_body_Append in Hb' as (_ & _ & _ & _ & ->). simpl.
  intros Hy. apply H2. set_solver.
Qed.

Lemma reachable_grid g a : reachable g a → on_grid a.
Proof.
  induction 1 as [|a fuel c n a' Hr IH (Hb & _) Hadd].
  - split; simpl; [set_solver|constructor].
  - apply reachable_sound in Hr as [Hh Hw _ _ _].
    eapply on_grid_add_knowledge; [exact IH| |exact Hadd]. by rewrite Hh, Hw.
Qed.

Lemma reachable_safe_cell g a c :
  board_wf g → reachable g a → c ∈ AI.safes a →
  in_bounds (Minesweeper.height g) (Minesweeper.width g) c ∧
  Minesweeper.is_mine g c = Some false.
Proof.
  intros Hwf Hr Hc. pose proof (reachable_grid g a Hr) as [Hg _].
  apply reachable_sound in Hr as [Hh Hw _ Hs _].
  assert (in_bounds (Minesweeper.height g) (Minesweeper.width g) c) as Hb.
  { rewrite <- Hh, <- Hw. apply Hg. set_solver. }
  split; [done|]. destruct (is_mine_on_board g c Hwf Hb) as [[] Hm]; [|done].
  exfalso. by apply (Hs c Hc).
Qed.

(** X12: in every state reached by truthful observations, every move made,
    every known mine, every known safe cell and every cell of a sentence
    is a cell of the grid. *)
Theorem reachable_on_grid (g : Minesweeper.t) (a : AI.t) :
  reachable g a → on_grid a.
Proof. apply reachable_grid. Qed.

Lemma reachable_on_grid_witness : on_grid line_state2.
Proof. apply (reachable_on_grid line_board), line_state2_reachable. Defined.

(** X13: in every state reached by truthful observations, every known mine
    is a cell of the grid where the board holds a mine. *)
Theorem known_mines_are_mines (g : Minesweeper.t) (a : AI.t) (c : cell) :
  reachable g a → c ∈ AI.mines a →
  in_bounds (Minesweeper.height g) (Minesweeper.width g) c ∧
  Minesweeper.is_mine g c = Some true.
Proof. intros Hr Hc. apply reachable_sound in Hr as [_ _ Hm _ _]. by apply Hm. Qed.

Lemma known_mines_are_mines_witness :
  in_bounds (Minesweeper.height line_board) (Minesweeper.width line_board) (0, 2) ∧
  Minesweeper.is_mine line_board (0, 2) = Some true.
Proof.
  apply (known_mines_are_mines line_board line_state2).
  - apply line_state2_reachable.
  - by_compute.
Defined.

(** X14: on a board of [height] rows of [width] cells, in every state
    reached by truthful observations, every known safe cell is a cell of
    the grid where the board holds no mine. *)
Theorem known_safes_hold_no_mine (g : Minesweeper.t) (a : AI.t) (c : cell) :
  board_wf g → reachable g a → c ∈ AI.safes a →
  in_bounds (Minesweeper.height g) (Minesweeper.width g) c ∧
  Minesweeper.is_mine g c = Some false.
Proof. apply reachable_safe_cell. Qed.

Lemma line_board_wf : board_wf line_board.
Proof. split; [reflexivity|]. repeat constructor. Qed.

Lemma known_safes_hold_no_mine_witness :
  in_bounds (Minesweeper.height line_board) (Minesweeper.width line_board) (0, 3) ∧
  Minesweeper.is_mine line_board (0, 3) = Some false.
Proof.
  apply (known_safes_hold_no_mine line_board line_state2).
  - apply line_board_wf.
  - apply line_state2_reachable.
  - by_compute.
Defined.

(** X15: in every state reached by truthful observations, the count of
    every sentence is the number of its cells where the board holds a
    mine. *)
Theorem sentence_counts_true_mines
    (g : Minesweeper.t) (a : AI.t) (s : Sentence.t) :
  reachable g a → s ∈ AI.knowledge a →
  Sentence.count s = Z.of_nat (size (filter (true_mine g) (Sentence.cells s))).
Proof.
  intros Hr Hs. apply reachable_sound in Hr as [_ _ _ _ Hk].
  rewrite Forall_forall in Hk. apply (Hk s Hs).
Qed.

Lemma sentence_counts_true_mines_witness :
  Sentence.count (Sentence.Build {[(0, 0); (0, 2)]} 1) =
  Z.of_nat (size (filter (true_mine line_board)
                    (Sentence.cells (Sentence.Build {[(0, 0); (0, 2)]} 1)))).
Proof.
  apply (sentence_counts_true_mines line_board line_state1).
  - apply line_state1_reachable.
  - apply list_elem_of_here.
Defined.

(** ** Safe moves on a reachable state *)

Lemma reachable_moves_safe g a : reachable g a → AI.moves_made a ⊆ AI.safes a.
Proof.
  induction 1 as [|a fuel c n a' _ IH _ Hadd]; [done|].
  apply add_knowledge_extends in Hadd as [(_ & _ & Hmv & _ & Hsa & _) _].
  rewrite Hmv. set_solver.
Qed.

(** X16: on a board of [height] rows of [width] cells, a cell that
    [make_safe_move] returns in a state reached by truthful observations,
    in whatever order the known safe cells are visited, is a cell of the
    grid that holds no mine and has not been played. *)
Theorem safe_move_is_safe
    (g : Minesweeper.t) (order : list cell) (a : AI.t) (c : cell) :
  board_wf g → reachable g a →
  (∀ x, x ∈ order ↔ x ∈ AI.safes a) →
  (AI.make_safe_move order a).1 = Some c →
  in_bounds (Minesweeper.height g) (Minesweeper.width g) c ∧
  Minesweeper.is_mine g c = Some false ∧
  c ∉ AI.moves_made a.
Proof.
  intros Hwf Hr Ho Hc. unfold AI.make_safe_move in Hc. simpl in Hc.
  apply safe_move_loop_spec in Hc as [Hc Hmv].
  apply Ho in Hc.
  destruct (reachable_safe_cell g a c Hwf Hr Hc). done.
Qed.

Lemma clear_state_reachable : reachable clear_board clear_state.
Proof.
  apply (reachable_observe clear_board (AI.init 2 3) 3 (1, 1) 0).
  - apply (reachable_init clear_board).
  - solve_truthful.
  - vm_compute. reflexivity.
Qed.

Lemma clear_board_wf : board_wf clear_board.
Proof. split; [reflexivity|]. repeat constructor. Qed.

Lemma safe_move_is_safe_witness :
  in_bounds (Minesweeper.height clear_board) (Minesweeper.width clear_board) (0, 1) ∧
  Minesweeper.is_mine clear_board (0, 1) = Some false ∧
  (0, 1) ∉ AI.moves_made clear_state.
Proof.
  apply (safe_move_is_safe clear_board clear_order clear_state (0, 1)).
  - apply clear_board_wf.
  - apply clear_state_reachable.
  - apply clear_order_enumerates.
  - reflexivity.
Defined.

(** X17: in a state reached by truthful observations every move made is a
    known safe cell, so [make_safe_move] returns [None] exactly when the
    known safe cells are the moves made, in whatever order the known safe
    cells are visited. *)
Theorem no_safe_move_iff_all_played
    (g : Minesweeper.t) (order : list cell) (a : AI.t) :
  reachable g a →
  (∀ c, c ∈ order ↔ c ∈ AI.safes a) →
  AI.moves_made a ⊆ AI.safes a ∧
  ((AI.make_safe_move order a).1 = None ↔ AI.safes a = AI.moves_made a).
Proof.
  intros Hr Ho. pose proof (reachable_moves_safe g a Hr) as Hsub.
  split; [done|]. unfold AI.make_safe_move. simpl.
  destruct (safe_move_loop_spec a order) as [_ ->].
  split.
  - intros H. apply set_eq. intros c. split; [|by apply Hsub].
    intros Hc. apply H. by apply Ho.
  - intros E c Hc. apply Ho in Hc. by rewrite <- E.
Qed.

Lemma no_safe_move_iff_all_played_witness :
  AI.moves_made line_state2 ⊆ AI.safes line_state2 ∧
  ((AI.make_safe_move line_order line_state2).1 = None ↔
   AI.safes line_state2 = AI.moves_made line_state2).
Proof.
  apply (no_safe_move_iff_all_played line_board line_order line_state2).
  - apply line_state2_reachable.
  - apply line_order_enumerates.
Defined.

(** ** The sentence of a truthful observation *)

Lemma sentence_sound_no_mine g s c :
  sentence_sound g s → Sentence.count s = 0 → c ∈ Sentence.cells s →
  ¬ true_mine g c.
Proof.
  intros Hs Hz Hc. apply (sentence_sound_known_safes g s c Hs).
  by apply Sentence_known_safes_elem.
Qed.

Lemma sentence_sound_all_mines g s c :
  sentence_sound g s → Sentence.len s = Sentence.count s →
  c ∈ Sentence.cells s → true_mine g c.
Proof.
  intros Hs Hl Hc. apply (sentence_sound_known_mines g s c Hs).
  apply Sentence_known_mines_elem. split; [|done]. split; [done|].
  intros Hz. unfold Sentence.len in Hl.
  assert (Sentence.cells s ≡ ∅) as E by (apply size_empty_iff; lia).
  set_solver.
Qed.

Lemma mines_among_none g X :
  (∀ c, c ∈ X → ¬ true_mine g c) → mines_among g X = 0%nat.
Proof.
  intros H. unfold mines_among. apply size_empty_iff.
  intros c. rewrite elem_of_filter. set_solver.
Qed.

Lemma mines_among_all g X :
  (∀ c, c ∈ X → true_mine g c) → mines_among g X = size X.
Proof.
  intros H. unfold mines_among. f_equal. apply set_eq. intros c.
  rewrite elem_of_filter. split; [tauto|]. intros Hc. split; [by apply H|done].
Qed.

(** While the direct pass runs, the sentence at index [k] keeps a subset of
    the cells it started with, and the cells it lost are known. *)
Lemma resolve_tracks g s k l : ∀ a,
  sound g a →
  (∃ s', AI.knowledge a !! k = Some s' ∧
         Sentence.cells s' ⊆ Sentence.cells s ∧
         Sentence.cells s ∖ Sentence.cells s' ⊆ AI.mines a ∪ AI.safes a) →
  sound g (foldl AI.resolve_step a l) ∧
  ∃ s', AI.knowledge (foldl AI.resolve_step a l) !! k = Some s' ∧
        Sentence.cells s' ⊆ Sentence.cells s ∧
        Sentence.cells s ∖ Sentence.cells s' ⊆
          AI.mines (foldl AI.resolve_step a l) ∪ AI.safes (foldl AI.resolve_step a l).
Proof.
  intros a Ha Hk.
  pose (J := λ x : AI.t, sound g x ∧
          ∃ s', AI.knowledge x !! k = Some s' ∧
                Sentence.cells s' ⊆ Sentence.cells s ∧
                Sentence.cells s ∖ Sentence.cells s' ⊆ AI.mines x ∪ AI.safes x).
  change (J (foldl AI.resolve_step a l)).
  apply (foldl_preserves J (λ _, True));
    [|apply Forall_forall; intros; exact Logic.I|by split].
  intros x i Hx _. revert Hx.
  apply (resolve_step_preserves J (true_mine g) (λ c, ¬ true_mine g c)).
  - intros y c [Hy (s' & Hs' & Hsub & Hlost)] Hc.
    split; [by apply sound_mark_mine|]. simpl. rewrite list_lookup_fmap, Hs'.
    eexists. split; [done|]. rewrite Sentence_cells_mark_mine.
    split; [set_solver|]. intros z Hz.
    destruct (decide (z = c)) as [->|]; [set_solver|].
    assert (z ∈ Sentence.cells s ∖ Sentence.cells s') by set_solver.
    set_solver.
  - intros y c [Hy (s' & Hs' & Hsub & Hlost)] Hc.
    split; [by apply sound_mark_safe|]. simpl. rewrite list_lookup_fmap, Hs'.
    eexists. split; [done|]. rewrite Sentence_cells_mark_safe.
    split; [set_solver|]. intros z Hz.
    destruct (decide (z = c)) as [->|]; [set_solver|].
    assert (z ∈ Sentence.cells s ∖ Sentence.cells s') by set_solver.
    set_solver.
  - intros y s0 c [[_ _ _ _ Hy] _] Hs0. apply sentence_sound_known_mines.
    by eapply (proj1 (Forall_forall _ _)).
  - intros y s0 c [[_ _ _ _ Hy] _] Hs0. apply sentence_sound_known_safes.
    by eapply (proj1 (Forall_forall _ _)).
Qed.

(** The step of the direct pass at index [k] settles what is left of a
    sentence whose count is zero or equal to its number of cells. *)
Lemma resolve_step_settles g a k s s' :
  sound g a → sentence_sound g s →
  AI.knowledge a !! k = Some s' →
  Sentence.cells s' ⊆ Sentence.cells s →
  Sentence.cells s ∖ Sentence.cells s' ⊆ AI.mines a ∪ AI.safes a →
  (Sentence.count s = 0 → Sentence.cells s ⊆ AI.safes (AI.resolve_step a k)) ∧
  (Sentence.len s = Sentence.count s →
   Sentence.cells s ⊆ AI.mines (AI.resolve_step a k)).
Proof.
  intros Ha Hs Hk Hsub Hlost.
  assert (sentence_sound g s') as Hs'.
  { destruct Ha as [_ _ _ _ Hkb]. rewrite Forall_forall in Hkb.
    apply Hkb. by eapply list_elem_of_lookup_2. }
  destruct Ha as [_ _ Hmines Hsafes _].
  unfold AI.resolve_step. rewrite Hk. cbv zeta. split.
  - intros Hz.
    assert (∀ x, x ∈ Sentence.cells s → ¬ true_mine g x) as Hnone
      by (intros x; by apply sentence_sound_no_mine).
    assert (Sentence.count s' = 0) as Hz'.
    { unfold sentence_sound in Hs'. rewrite Hs', mines_among_none; [done|].
      intros x Hx. apply Hnone. by apply Hsub. }
    unfold Sentence.known_mines, Sentence.known_safes.
    rewrite (decide_False (P := _ ∧ _)) by tauto.
    rewrite (decide_True (P := Sentence.count s' = 0)) by done. simpl.
    rewrite (decide_False (P := ∅ ≠ ∅)) by auto.
    intros x Hx.
    assert (x ∈ Sentence.cells s' ∨ x ∈ AI.safes a) as Hcase.
    { destruct (decide (x ∈ Sentence.cells s')); [by left|right].
      assert (x ∈ AI.mines a ∪ AI.safes a) as Hin by (apply Hlost; set_solver).
      apply elem_of_union in Hin as [Hin|Hin]; [|done].
      exfalso. by apply (Hnone x Hx), Hmines. }
    destruct (decide (Sentence.cells s' ≠ ∅)) as [Hne|He].
    + rewrite mark_safes_eq. simpl. set_solver.
    + destruct Hcase as [Hin|Hin]; [|done]. exfalso. apply He. set_solver.
  - intros Hl.
    assert (∀ x, x ∈ Sentence.cells s → true_mine g x) as Hall
      by (intros x; by apply sentence_sound_all_mines).
    assert (Sentence.len s' = Sentence.count s') as Hl'.
    { unfold sentence_sound in Hs'. unfold Sentence.len.
      rewrite Hs', mines_among_all; [done|].
      intros x Hx. apply Hall. by apply Hsub. }
    intros x Hx.
    assert (x ∈ Sentence.cells s' ∨ x ∈ AI.mines a) as Hcase.
    { destruct (decide (x ∈ Sentence.cells s')); [by left|right].
      assert (x ∈ AI.mines a ∪ AI.safes a) as Hin by (apply Hlost; set_solver).
      apply elem_of_union in Hin as [Hin|Hin]; [done|].
      exfalso. by apply (Hsafes x Hin), Hall. }
    unfold Sentence.known_mines, Sentence.known_safes.
    destruct (decide (Sentence.count s' = 0)) as [Hz|Hnz].
    + assert (Sentence.cells s' ≡ ∅) as He.
      { apply size_empty_iff. unfold Sentence.len in Hl'. lia. }
      rewrite (decide_False (P := _ ∧ _)) by tauto. simpl.
      rewrite (decide_False (P := ∅ ≠ ∅)) by auto.
      rewrite decide_False by (intros Hne; apply Hne; set_solver).
      destruct Hcase as [Hin|Hin]; [set_solver|done].
    + rewrite (decide_True (P := _ ∧ _)) by done. simpl.
      rewrite (decide_False (P := ∅ ≠ ∅)) by auto.
      destruct (decide (Sentence.cells s' ≠ ∅)) as [Hne|He].
      * rewrite mark_mines_eq. simpl. set_solver.
      * destruct Hcase as [Hin|Hin]; [|done]. exfalso. apply He. set_solver.
Qed.

(** X18: when a truthful observation is added in a reachable state, the
    sentence built from it is settled before [add_knowledge] returns: if
    its count is zero all its cells are known safe cells afterwards, and
    if its count is its number of cells they are all known mines. *)
Theorem observation_settled
    (g : Minesweeper.t) (fuel : nat) (c : cell) (n : Z) (a a' : AI.t) :
  reachable g a → truthful g c n →
  AI.add_knowledge fuel c n a = Some a' →
  (Sentence.count (AI.new_sentence (AI.mark_safe c a) c n) = 0 →
   Sentence.cells (AI.new_sentence (AI.mark_safe c a) c n) ⊆ AI.safes a') ∧
  (Sentence.len (AI.new_sentence (AI.mark_safe c a) c n) =
     Sentence.count (AI.new_sentence (AI.mark_safe c a) c n) →
   Sentence.cells (AI.new_sentence (AI.mark_safe c a) c n) ⊆ AI.mines a').
Proof.
  intros Hr (_ & Hc & Hn) Hadd. apply reachable_sound in Hr.
  pose proof (sound_record_move g a c n Hr Hc Hn) as H0.
  unfold AI.add_knowledge, AI.propagate in Hadd.
  apply subset_pass_frame in Hadd as (_ & _ & _ & -> & -> & _).
  set (s := AI.new_sentence (AI.mark_safe c a) c n).
  set (a0 := AI.record_move c n a) in *.
  set (kb0 := Sentence.mark_safe c <$> AI.knowledge a).
  assert (AI.knowledge a0 = kb0 ++ [s]) as E by reflexivity.
  assert (sentence_sound g s) as Hs.
  { destruct H0 as [_ _ _ _ Hk]. rewrite E in Hk.
    apply Forall_app in Hk as [_ Hk]. by inversion Hk. }
  unfold AI.resolve_pass. rewrite E, length_app. simpl.
  rewrite Nat.add_1_r, seq_S, foldl_app. simpl.
  destruct (resolve_tracks g s (length kb0) (seq 0 (length kb0)) a0 H0)
    as (H1 & s' & Hs' & Hsub & Hlost).
  { exists s. split; [|set_solver].
    rewrite E. rewrite lookup_app_r by done. by rewrite Nat.sub_diag. }
  by apply (resolve_step_settles g _ _ s s').
Qed.

Lemma observation_settled_witness :
  Sentence.cells (AI.new_sentence (AI.mark_safe (0, 3) line_state1) (0, 3) 1)
    ⊆ AI.mines line_state2.
Proof.
  apply (proj2 (observation_settled line_board 7 (0, 3) 1 line_state1 line_state2
                  line_state1_reachable
                  ltac:(solve_truthful) ltac:(vm_compute; reflexivity))).
  vm_compute. reflexivity.
Defined.

(** ** Building a board *)

Lemma py_range_length lo hi : length (py_range lo hi) = Z.to_nat (hi - lo).
Proof. unfold py_range. by rewrite length_fmap, length_seq. Qed.

Lemma py_index_elem {A} (l : list A) z x : py_index l z = Some x → x ∈ l.
Proof.
  unfold py_index. destruct (decide (0 ≤ z)); [apply list_elem_of_lookup_2|].
  destruct (decide (- Z.of_nat (length l) ≤ z)); [|done].
  apply list_elem_of_lookup_2.
Qed.

Lemma randrange_bounds r n i : Game.randrange r n = Some i → 0 ≤ i < n.
Proof.
  unfold Game.randrange. destruct (decide (0 < n)); [|done]. intros [= <-].
  pose proof (Nat.mod_upper_bound r (Z.to_nat n)). lia.
Qed.

Lemma empty_board_wf h w :
  board_wf (Minesweeper.Build h w (Game.empty_board h w)).
Proof.
  unfold board_wf, Game.empty_board. simpl. split.
  - rewrite length_fmap, py_range_length. f_equal. lia.
  - rewrite Forall_fmap. apply Forall_forall. intros x _. simpl.
    rewrite length_fmap, py_range_length. f_equal. lia.
Qed.

Lemma empty_board_no_mine h w c :
  Minesweeper.is_mine (Minesweeper.Build h w (Game.empty_board h w)) c ≠ Some true.
Proof.
  unfold Minesweeper.is_mine. simpl.
  destruct (py_index (Game.empty_board h w) c.1) as [row|] eqn:Hrow; [|done].
  simpl. intros Hb. apply py_index_elem in Hrow, Hb.
  unfold Game.empty_board in Hrow.
  apply list_elem_of_fmap in Hrow as (_ & -> & _).
  by apply list_elem_of_fmap in Hb as (_ & [=] & _).
Qed.

Lemma set_true_wf h w board i j :
  board_wf (Minesweeper.Build h w board) →
  board_wf (Minesweeper.Build h w (Game.set_true board i j)).
Proof.
  unfold board_wf, Game.set_true. simpl. intros [Hrows Hcols]. split.
  - by rewrite length_alter.
  - apply Forall_alter; [done|]. intros row _ Hrow. by rewrite length_insert.
Qed.

Lemma py_index_nonneg {A} (l : list A) z :
  0 ≤ z → py_index l z = l !! Z.to_nat z.
Proof. intros. unfold py_index. by rewrite decide_True. Qed.

Lemma is_mine_set_true h w board i j c :
  board_wf (Minesweeper.Build h w board) →
  in_bounds h w (i, j) → in_bounds h w c →
  Minesweeper.is_mine (Minesweeper.Build h w (Game.set_true board i j)) c =
  if decide (c = (i, j)) then Some true
  else Minesweeper.is_mine (Minesweeper.Build h w board) c.
Proof.
  unfold board_wf, in_bounds, Minesweeper.is_mine, Game.set_true.
  simpl. intros [Hrows Hcols] [[??] [??]] [[??] [??]].
  destruct c as [ci cj]. simpl in *.
  rewrite !(py_index_nonneg _ ci) by done.
  destruct (lookup_lt_is_Some_2 board (Z.to_nat i)) as [row Hrow]; [lia|].
  assert (length row = Z.to_nat w) as Hlen.
  { rewrite Forall_forall in Hcols. apply Hcols. by eapply list_elem_of_lookup_2. }
  destruct (decide (ci = i)) as [->|Hi].
  - rewrite list_lookup_alter_eq, Hrow. simpl.
    rewrite !(py_index_nonneg _ cj) by done.
    destruct (decide (cj = j)) as [->|Hj].
    + rewrite decide_True by done. apply list_lookup_insert_eq. lia.
    + rewrite decide_False by congruence. apply list_lookup_insert_ne. lia.
  - rewrite decide_False by congruence.
    rewrite list_lookup_alter_ne by lia. done.
Qed.

(** The loop keeps the shape of the board and the set of mines in step
    with the board, and stops with the number of mines asked for. *)
Lemma place_spec h w target draws : ∀ board placed board' placed',
  board_wf (Minesweeper.Build h w board) →
  (∀ c, c ∈ placed ↔ true_mine (Minesweeper.Build h w board) c) →
  Game.place h w target draws board placed = Game.Returned (board', placed') →
  board_wf (Minesweeper.Build h w board') ∧
  (∀ c, c ∈ placed' ↔ true_mine (Minesweeper.Build h w board') c) ∧
  Z.of_nat (size placed') = target.
Proof.
  induction draws as [|[r1 r2] draws IH]; intros board placed board' placed' Hwf Hm;
    simpl.
  { destruct (decide _) as [|Hsz]; [done|]. intros [= <- <-].
    split_and!; [done|done|]. by destruct (decide (Z.of_nat (size placed) = target)). }
  destruct (decide _) as [Hsz|Hsz].
  2:{ intros [= <- <-]. split_and!; [done|done|].
      by destruct (decide (Z.of_nat (size placed) = target)). }
  destruct (Game.randrange r1 h) as [i|] eqn:Hi; [|done].
  destruct (Game.randrange r2 w) as [j|] eqn:Hj; [|done].
  apply randrange_bounds in Hi, Hj.
  assert (in_bounds h w (i, j)) as Hb by (unfold in_bounds; simpl; lia).
  destruct (py_index board i ≫= λ row, py_index row j)
    as [[]|] eqn:Hij; [by apply IH| |done].
  apply IH; [by apply set_true_wf|].
  intros c. unfold true_mine. simpl. rewrite elem_of_union, elem_of_singleton.
  split.
  - intros [->|Hc].
    + split; [done|]. rewrite is_mine_set_true by done. by rewrite decide_True.
    + apply Hm in Hc as [Hcb Hcm]. simpl in Hcb. split; [done|].
      rewrite is_mine_set_true by done. destruct (decide _); [done|exact Hcm].
  - intros [Hcb Hcm]. rewrite is_mine_set_true in Hcm by done.
    destruct (decide (c = (i, j))) as [->|]; [by left|right].
    apply Hm. by split.
Qed.

Lemma init_Returned h w target draws g :
  Game.init h w target draws = Game.Returned g →
  ∃ board placed,
    Game.place h w target draws (Game.empty_board h w) ∅ =
      Game.Returned (board, placed) ∧
    g = Game.Build (Minesweeper.Build h w board) placed ∅.
Proof.
  unfold Game.init.
  destruct (Game.place _ _ _ _ _ _) as [[board placed]| |]; [|done|done].
  intros [= <-]. by eexists _, _.
Qed.

Lemma init_invariants h w target draws g :
  Game.init h w target draws = Game.Returned g →
  Minesweeper.height (Game.field g) = h ∧
  Minesweeper.width (Game.field g) = w ∧
  board_wf (Game.field g) ∧
  Game.mines_found g = ∅ ∧
  Z.of_nat (size (Game.mines g)) = target ∧
  ∀ c, c ∈ Game.mines g ↔ true_mine (Game.field g) c.
Proof.
  intros H. apply init_Returned in H as (board & placed & Hp & ->). simpl.
  apply place_spec in Hp as (Hwf & Hm & Hsz).
  - by split_and!.
  - apply empty_board_wf.
  - intros c. split; [set_solver|]. intros [_ Hc].
    by apply empty_board_no_mine in Hc.
Qed.

(** X19: when [Minesweeper(height, width, mines)] returns, the board has
    [height] rows of [width] cells, no mine is found yet, the set of mines
    has the size asked for, and it holds exactly the cells of the grid
    where the board is [True]. *)
Theorem init_spec (h w target : Z) (draws : list (nat * nat)) (g : Game.t) :
  Game.init h w target draws = Game.Returned g →
  Minesweeper.height (Game.field g) = h ∧
  Minesweeper.width (Game.field g) = w ∧
  board_wf (Game.field g) ∧
  Game.mines_found g = ∅ ∧
  Z.of_nat (size (Game.mines g)) = target ∧
  ∀ c, c ∈ Game.mines g ↔
       in_bounds h w c ∧ Minesweeper.is_mine (Game.field g) c = Some true.
Proof.
  intros H. pose proof (init_invariants _ _ _ _ _ H) as (Hh & Hw & ? & ? & ? & Hm).
  split_and!; try done. intros c. rewrite Hm. unfold true_mine.
  by rewrite Hh, Hw.
Qed.

Lemma init_spec_witness :
  Z.of_nat (size (Game.mines
    (Game.Build
       (Minesweeper.Build 2 3 [[false; false; true]; [true; false; false]])
       {[(0, 2); (1, 0)]} ∅))) = 2.
Proof.
  apply (init_spec 2 3 2 [(1, 0); (1, 3); (4, 5)]%nat
           (Game.Build
              (Minesweeper.Build 2 3 [[false; false; true]; [true; false; false]])
              {[(0, 2); (1, 0)]} ∅)).
  vm_compute. reflexivity.
Defined.

Lemma pairs_length (l1 l2 : list Z) :
  length (i ← l1; j ← l2; [(i, j) : cell]) = (length l1 * length l2)%nat.
Proof.
  induction l1 as [|i l1 IH]; [done|].
  rewrite bind_cons, length_app, IH. simpl. f_equal.
  clear. induction l2 as [|j l2 IH]; [done|].
  rewrite bind_cons, length_app, IH. done.
Qed.

Lemma grid_length h w : length (grid h w) = (Z.to_nat h * Z.to_nat w)%nat.
Proof.
  unfold grid. rewrite pairs_length, !py_range_length. f_equal; f_equal; lia.
Qed.

(** X20: [Minesweeper(height, width, mines)] returns only when the number
    of mines asked for is between zero and the number of cells of the
    grid; for any other number the loop that places the mines cannot
    end. *)
Theorem init_needs_room (h w target : Z) (draws : list (nat * nat)) (g : Game.t) :
  Game.init h w target draws = Game.Returned g →
  0 ≤ target ≤ Z.of_nat (Z.to_nat h * Z.to_nat w).
Proof.
  intros H. apply init_invariants in H as (Hh & Hw & _ & _ & Hsz & Hm).
  rewrite <- Hsz. split; [lia|]. apply inj_le.
  rewrite <- grid_length.
  rewrite <- (size_list_to_set (C := gset cell) (grid h w))
    by (apply NoDup_pairs; apply NoDup_py_range).
  apply subseteq_size. intros c Hc. apply Hm in Hc as [Hb _].
  rewrite Hh, Hw in Hb. by apply elem_of_list_to_set, elem_of_grid.
Qed.

Lemma init_needs_room_witness : 0 ≤ 2 ≤ Z.of_nat (Z.to_nat 2 * Z.to_nat 3).
Proof.
  apply (init_needs_room 2 3 2 [(1, 0); (1, 3); (4, 5)]%nat
           (Game.Build
              (Minesweeper.Build 2 3 [[false; false; true]; [true; false; false]])
              {[(0, 2); (1, 0)]} ∅)).
  vm_compute. reflexivity.
Defined.

(** X21: a game that [Minesweeper(height, width, mines)] has just built is
    won exactly when no mine was asked for. *)
Theorem fresh_game_won (h w target : Z) (draws : list (nat * nat)) (g : Game.t) :
  Game.init h w target draws = Game.Returned g →
  Game.won g = true ↔ target = 0.
Proof.
  intros H. apply init_invariants in H as (_ & _ & _ & Hf & Hsz & _).
  unfold Game.won. rewrite Hf, bool_decide_eq_true. split.
  - intros E. rewrite <- E, size_empty in Hsz. lia.
  - intros ->. symmetry. apply leibniz_equiv, size_empty_iff. lia.
Qed.

Lemma fresh_game_won_witness :
  Game.won (Game.Build (Minesweeper.Build 2 3 (Game.empty_board 2 3)) ∅ ∅) = true
  ↔ 0 = 0.
Proof.
  apply (fresh_game_won 2 3 0 [] (Game.Build (Minesweeper.Build 2 3 _) ∅ ∅)).
  reflexivity.
Defined.

(** X22: when a number of mines other than zero is asked for and the
    height or the width is not positive, [Minesweeper(height, width,
    mines)] raises at the first draw: [randrange] has no number to
    return. *)
Theorem init_raises_without_grid
    (h w target : Z) (d : nat * nat) (draws : list (nat * nat)) :
  target ≠ 0 → h ≤ 0 ∨ w ≤ 0 →
  Game.init h w target (d :: draws) = Game.Raised.
Proof.
  intros Ht Hhw. unfold Game.init. destruct d as [r1 r2]. cbn [Game.place].
  rewrite decide_True by (rewrite size_empty; simpl; lia).
  unfold Game.randrange. destruct (decide (0 < h)) as [Hh|Hh]; [|done].
  rewrite (decide_False (P := 0 < w)) by lia. done.
Qed.

Lemma init_raises_without_grid_witness :
  Game.init 0 3 2 [(1, 0); (1, 3)]%nat = Game.Raised.
Proof.
  apply (init_raises_without_grid 0 3 2 (1, 0)%nat [(1, 3)%nat]);
    [discriminate|left; reflexivity].
Defined.

(** ** Sentences that count the mines of a board *)

(** X23: the subset rule is sound: when the counts of two sentences are the
    numbers of mines among their cells and the loop body derives a
    sentence from them, the derived sentence holds the cells of the second
    that are not in the first, is not empty, and its count is the number
    of mines among its cells. *)
Theorem subset_rule_sound (g : Minesweeper.t) (s1 s2 s : Sentence.t) :
  Sentence.count s1 = Z.of_nat (size (filter (true_mine g) (Sentence.cells s1))) →
  Sentence.count s2 = Z.of_nat (size (filter (true_mine g) (Sentence.cells s2))) →
  AI.subset_body s1 s2 = AI.Append s →
  Sentence.cells s = Sentence.cells s2 ∖ Sentence.cells s1 ∧
  Sentence.cells s ≠ ∅ ∧
  Sentence.count s = Z.of_nat (size (filter (true_mine g) (Sentence.cells s))).
Proof.
  intros H1 H2 Hb.
  pose proof (sentence_sound_derived g s1 s2 s H1 H2 Hb) as Hs.
  pose proof (subset_body_Append_active _ _ _ Hb) as (_ & _ & Hne & _).
  apply subset_body_Append in Hb as (_ & _ & _ & _ & ->). done.
Qed.

Lemma subset_rule_sound_witness :
  Sentence.cells (Sentence.Build {[(0, 2); (1, 2)]} 0) =
    Sentence.cells corner_wide ∖ Sentence.cells corner_narrow ∧
  Sentence.cells (Sentence.Build {[(0, 2); (1, 2)]} 0) ≠ ∅ ∧
  Sentence.count (Sentence.Build {[(0, 2); (1, 2)]} 0) =
    Z.of_nat (size (filter (true_mine corner_board)
                      (Sentence.cells (Sentence.Build {[(0, 2); (1, 2)]} 0)))).
Proof.
  pose proof (sound_knowledge _ _ (reachable_sound _ _ corner_state2_reachable)) as Hk.
  apply (subset_rule_sound corner_board corner_narrow corner_wide).
  - apply (proj1 (Forall_forall _ _) Hk). apply list_elem_of_further, list_elem_of_here.
  - apply (proj1 (Forall_forall _ _) Hk). apply list_elem_of_here.
  - vm_compute. reflexivity.
Defined.

(** X24: when the count of a sentence is the number of mines among its
    cells, every cell [known_mines] returns holds a mine and no cell
    [known_safes] returns does. *)
Theorem known_cells_sound (g : Minesweeper.t) (s : Sentence.t) (c : cell) :
  Sentence.count s = Z.of_nat (size (filter (true_mine g) (Sentence.cells s))) →
  (c ∈ (Sentence.known_mines s).1 → true_mine g c) ∧
  (c ∈ (Sentence.known_safes s).1 → ¬ true_mine g c).
Proof.
  intros Hs. split.
  - by apply sentence_sound_known_mines.
  - by apply sentence_sound_known_safes.
Qed.

(** On the one-row board [{(0,2)} = 1] reports its cell as a mine and
    [{(0,0)} = 0] reports its cell as safe. *)
Lemma known_cells_sound_witness :
  ((0, 2) ∈ (Sentence.known_mines (Sentence.Build {[(0, 2)]} 1)).1 ∧
   true_mine line_board (0, 2)) ∧
  ((0, 0) ∈ (Sentence.known_safes (Sentence.Build {[(0, 0)]} 0)).1 ∧
   ¬ true_mine line_board (0, 0)).
Proof.
  assert ((0, 2) ∈ (Sentence.known_mines (Sentence.Build {[(0, 2)]} 1)).1) as Hm
    by by_compute.
  assert ((0, 0) ∈ (Sentence.known_safes (Sentence.Build {[(0, 0)]} 0)).1) as Hs
    by by_compute.
  assert (sentence_sound line_board (Sentence.Build {[(0, 2)]} 1)) as H1.
  { pose proof (sound_knowledge _ _
      (sound_record_move line_board line_state1 (0, 3) 1
         (reachable_sound _ _ line_state1_reachable)
         ltac:(vm_compute; reflexivity) ltac:(vm_compute; reflexivity))) as Hk.
    apply (proj1 (Forall_forall _ _) Hk). by_compute. }
  assert (sentence_sound line_board (Sentence.Build {[(0, 0)]} 0)) as H2.
  { pose proof (sound_knowledge _ _ (reachable_sound _ _ line_state2_reachable)) as Hk.
    apply (proj1 (Forall_forall _ _) Hk). apply list_elem_of_here. }
  split; (split; [assumption|]).
  - apply (proj1 (known_cells_sound line_board (Sentence.Build {[(0, 2)]} 1) (0, 2) H1) Hm).
  - apply (proj2 (known_cells_sound line_board (Sentence.Build {[(0, 0)]} 0) (0, 0) H2) Hs).
Defined.
